(** * Hawaii/Liri shell: handler selection, workspace list and window chrome

    A shallow embedding of
    - [ShellManager] (shell handler registration and selection),
    - [DesktopShell] (the window and workspace lists),
    - [WaylandChrome.qml] (the per-window chrome and its lifecycle handlers),
    together with the properties of the shell's specification that these
    pieces of code decide. *)

From stdpp Require Import gmap strings list.

Local Open Scope string_scope.
Local Open Scope list_scope.
Local Open Scope Z_scope.

(** * Qt and C++ library pieces the code relies on *)

Module Qt.

(** A [QObject *]: an address, [nullptr] being address zero. *)
Definition ptr := nat.
Definition nullptr : ptr := 0%nat.

(** [if (p)] on a pointer. *)
Definition non_null (p : ptr) : bool := negb (bool_decide (p = nullptr)).

(** How a call ends: it returns with the new state; or the process is
    stopped by [qFatal] with a diagnostic, in the state reached by then; or
    a library call is made outside its contract and the behaviour is
    undefined from there on (a build with assertions stops at the
    assertion named by [why], a build without them goes on with whatever
    the call does out of bounds), so that no state is known. *)
Inductive Outcome (St : Type) : Type :=
| Returned (s : St)
| Aborted (msg : string) (s : St)
| Undefined (why : string).
Arguments Returned {St} s.
Arguments Aborted {St} msg s.
Arguments Undefined {St} why.

Definition bind {St} (o : Outcome St) (k : St → Outcome St) : Outcome St :=
  match o with
  | Returned s => k s
  | Aborted msg s => Aborted msg s
  | Undefined why => Undefined why
  end.

(** [std::min_element(first, last, comp)]: the scan keeps the earliest
    element that no later one is smaller than; on an empty range it
    returns [last] (here [None]). *)
Fixpoint min_element_from {A} (comp : A → A → bool) (smallest : A) (rest : list A) : A :=
  match rest with
  | [] => smallest
  | x :: rest' => min_element_from comp (if comp x smallest then x else smallest) rest'
  end.

Definition min_element {A} (comp : A → A → bool) (l : list A) : option A :=
  match l with
  | [] => None
  | x :: rest => Some (min_element_from comp x rest)
  end.

(** [QList<T>::takeAt(i)]: "i must be a valid index position in the list
    (i.e., 0 <= i < size())".  The implementation guards the index with
    [Q_ASSERT_X(..., "QList<T>::take", "index out of range")] only, which
    is compiled out of builds without assertions; it then reads and
    removes at the index as given.  [None] stands for a call outside the
    contract, of which nothing is known. *)
Definition takeAt {A} (l : list A) (i : Z) : option (A * list A) :=
  if decide (0 ≤ i < Z.of_nat (length l))
  then (λ x, (x, delete (Z.to_nat i) l)) <$> l !! Z.to_nat i
  else None.

(** [QList<T>::removeOne(value)]: removes the first occurrence. *)
Fixpoint removeOne (l : list ptr) (v : ptr) : list ptr :=
  match l with
  | [] => []
  | x :: l' => if decide (x = v) then l' else x :: removeOne l' v
  end.

(** [QList<T>::indexOf(value)]: index of the first occurrence, -1 if none. *)
Fixpoint indexOf_from (l : list ptr) (v : ptr) (i : Z) : Z :=
  match l with
  | [] => -1
  | x :: l' => if decide (x = v) then i else indexOf_from l' v (i + 1)
  end.
Definition indexOf (l : list ptr) (v : ptr) : Z := indexOf_from l v 0.

(** [QList<T>::at(i)]: "i must be a valid index position in the list";
    [None] stands for the violated precondition. *)
Definition at_index {A} (l : list A) (i : Z) : option A :=
  if decide (0 ≤ i < Z.of_nat (length l)) then l !! Z.to_nat i else None.

End Qt.

Import Qt.

(** * ShellManager: registration and selection of shell handlers *)

Module ShellManager.

(** The dynamic properties the manager reads and writes on a handler
    object ([property("willing")], [property("priority")],
    [setProperty("loaded", ...)], [property("shell")], [property("path")]). *)
Record Handler : Type := mkHandler {
  prop_willing : bool;
  prop_priority : Z;
  prop_loaded : bool;
  prop_shell : string;
  prop_path : string;
}.

Inductive Signal : Type :=
| shellChanged (currentShell : string).

(** Modelled from the spec: the class declaration (shellmanager.h) is not
    among the sources.  [m_handlers] is the specification's
    registered-candidate mapping, keyed by the unique internal name; the
    code uses it as a Qt associative container ([insert], [remove], [key],
    [contains], [isEmpty], [values]), which enumerates its entries in an
    order of its own and not in the order of insertion.  [m_currentHandler]
    is the non-owning pointer into that mapping.  [objects] holds the
    handler objects by address, [connections] the handlers whose signals
    are connected to the manager (a second connection of a handler would
    only repeat an evaluation that changes nothing), [emitted] the signals
    emitted so far. *)
Record ShellManager : Type := mkShellManager {
  m_handlers : gmap string ptr;
  m_currentHandler : ptr;
  objects : gmap ptr Handler;
  connections : gset ptr;
  emitted : list Signal;
}.

Definition set_handlers (m : gmap string ptr) (s : ShellManager) : ShellManager :=
  mkShellManager m (m_currentHandler s) (objects s) (connections s) (emitted s).
Definition set_currentHandler (h : ptr) (s : ShellManager) : ShellManager :=
  mkShellManager (m_handlers s) h (objects s) (connections s) (emitted s).
Definition set_objects (o : gmap ptr Handler) (s : ShellManager) : ShellManager :=
  mkShellManager (m_handlers s) (m_currentHandler s) o (connections s) (emitted s).
Definition set_connections (c : gset ptr) (s : ShellManager) : ShellManager :=
  mkShellManager (m_handlers s) (m_currentHandler s) (objects s) c (emitted s).
Definition emit (sig : Signal) (s : ShellManager) : ShellManager :=
  mkShellManager (m_handlers s) (m_currentHandler s) (objects s) (connections s)
                 (emitted s ++ [sig]).

(** [handler->property(...)]: an object without the property yields an
    invalid variant, which converts to [false], [0] and the empty string. *)
Definition willing (s : ShellManager) (h : ptr) : bool :=
  from_option prop_willing false (objects s !! h).
Definition priority (s : ShellManager) (h : ptr) : Z :=
  from_option prop_priority 0 (objects s !! h).
Definition loaded (s : ShellManager) (h : ptr) : bool :=
  from_option prop_loaded false (objects s !! h).
Definition shell_of (s : ShellManager) (h : ptr) : string :=
  from_option prop_shell "" (objects s !! h).
Definition path_of (s : ShellManager) (h : ptr) : string :=
  from_option prop_path "" (objects s !! h).

Definition with_loaded (b : bool) (o : Handler) : Handler :=
  mkHandler (prop_willing o) (prop_priority o) b (prop_shell o) (prop_path o).
Definition with_path (p : string) (o : Handler) : Handler :=
  mkHandler (prop_willing o) (prop_priority o) (prop_loaded o) (prop_shell o) p.

(** [handler->setProperty("loaded", b)]. *)
Definition setLoaded (h : ptr) (b : bool) (s : ShellManager) : ShellManager :=
  set_objects (alter (with_loaded b) h (objects s)) s.
Definition setPath (h : ptr) (p : string) (s : ShellManager) : ShellManager :=
  set_objects (alter (with_path p) h (objects s)) s.

(** [m_handlers.values()] and [m_handlers.key(handler)] (the first key
    holding the value, a default-constructed key if there is none). *)
Definition values (m : gmap string ptr) : list ptr := (map_to_list m).*2.
Definition key (m : gmap string ptr) (h : ptr) : string :=
  match filter (λ kv, kv.2 = h) (map_to_list m) with
  | [] => ""
  | kv :: _ => kv.1
  end.

(** [QString ShellManager::shell() const] *)
Definition shell (s : ShellManager) : string :=
  if non_null (m_currentHandler s) then shell_of s (m_currentHandler s) else "".

(** [QDir]: the directory path it was constructed from; [QDir()] is
    constructed from the null string. *)
Record QDir : Type := mkQDir { dirPath : string }.
Definition QDir_default : QDir := mkQDir "".

(** [QDir ShellManager::shellDirectory() const] *)
Definition shellDirectory (s : ShellManager) : QDir :=
  if non_null (m_currentHandler s) then mkQDir (path_of s (m_currentHandler s))
  else QDir_default.

(** The [compare] lambda of [updateShell]. *)
Definition compare (s : ShellManager) (left right : ptr) : bool :=
  if willing s left && negb (willing s right) then true
  else if negb (willing s left) && willing s right then false
  else bool_decide (priority s left < priority s right).

Definition fatal_no_handlers : string :=
  "No shell handlers installed, cannot continue!".

(** [void ShellManager::updateShell()] *)
Definition updateShell (s : ShellManager) : Outcome ShellManager :=
  if decide (m_handlers s = ∅) then Aborted fatal_no_handlers s
  else
    match min_element (compare s) (values (m_handlers s)) with
    | None => Aborted "dereference of the end iterator" s
    | Some handler =>
        if decide (m_currentHandler s = handler) then Returned s
        else
          let s1 := if non_null (m_currentHandler s)
                    then setLoaded (m_currentHandler s) false s else s in
          let s2 := set_currentHandler handler s1 in
          let s3 := setLoaded (m_currentHandler s2) true s2 in
          let currentShell := shell_of s3 (m_currentHandler s3) in
          Returned (emit (shellChanged currentShell) s3)
    end.

(** [void ShellManager::registerHandler(const QString &name, QObject *handler)] *)
Definition registerHandler (name : string) (handler : ptr) (s : ShellManager) : ShellManager :=
  set_handlers (<[name := handler]> (m_handlers s))
               (set_connections ({[handler]} ∪ connections s) s).

(** [void ShellManager::deregisterHandler(QObject *handler)] *)
Definition deregisterHandler (handler : ptr) (s : ShellManager) : Outcome ShellManager :=
  let s1 := set_handlers (delete (key (m_handlers s) handler) (m_handlers s)) s in
  let s2 := set_connections (connections s1 ∖ {[handler]}) s1 in
  if decide (m_currentHandler s2 = handler)
  then updateShell (set_currentHandler nullptr s2)
  else Returned s2.

Definition with_willing (b : bool) (o : Handler) : Handler :=
  mkHandler b (prop_priority o) (prop_loaded o) (prop_shell o) (prop_path o).
Definition with_priority (n : Z) (o : Handler) : Handler :=
  mkHandler (prop_willing o) n (prop_loaded o) (prop_shell o) (prop_path o).

(** A handler changes its [willing] or [priority] property and signals it
    ([willingChanged()], [priorityChanged()]); [registerHandler] connected
    both signals to [updateShell]. *)
Definition willingChanged (handler : ptr) (b : bool) (s : ShellManager) : Outcome ShellManager :=
  let s1 := set_objects (alter (with_willing b) handler (objects s)) s in
  if decide (handler ∈ connections s1) then updateShell s1 else Returned s1.
Definition priorityChanged (handler : ptr) (n : Z) (s : ShellManager) : Outcome ShellManager :=
  let s1 := set_objects (alter (with_priority n) handler (objects s)) s in
  if decide (handler ∈ connections s1) then updateShell s1 else Returned s1.

(** One directory under the shells directory, as [loadHandlers] sees it:
    its name, the internal name of its metadata.desktop ([None] when the
    metadata is not valid), and the object its loader.qml creates ([None]
    when [component.create()] returns null). *)
Record ShellDir : Type := mkShellDir {
  dirName : string;
  internalName : option string;
  component : option Handler;
}.

(** [component.create()]: a new object at an address not in use. *)
Definition create (o : Handler) (s : ShellManager) : ptr * ShellManager :=
  let handler := fresh (dom (objects s) ∪ {[nullptr]}) in
  (handler, set_objects (<[handler := o]> (objects s)) s).

(** [shellsDir.absoluteFilePath(fileName)] *)
Definition absoluteFilePath (shellsDir fileName : string) : string :=
  shellsDir +:+ "/" +:+ fileName.

(** The body of the loop of [loadHandlers]. *)
Definition loadHandler (shellsDir : string) (s : ShellManager) (d : ShellDir) : ShellManager :=
  match internalName d with
  | None => s
  | Some name =>
      if decide (is_Some (m_handlers s !! name)) then s
      else
        match component d with
        | None => s
        | Some o =>
            let (handler, s1) := create o s in
            setPath handler (absoluteFilePath shellsDir (dirName d +:+ "/contents/"))
                    (registerHandler name handler s1)
        end
  end.

(** [void ShellManager::loadHandlers()]; [INSTALL_DATADIR] comes from
    cmakedirs.h, [entryList] the directories found there. *)
Definition loadHandlers (INSTALL_DATADIR : string) (entryList : list ShellDir)
    (s : ShellManager) : Outcome ShellManager :=
  let shellsDir := INSTALL_DATADIR +:+ "/hawaii/shells" in
  updateShell (foldl (loadHandler shellsDir) s entryList).

(** The handler a call has left current, if the call returned. *)
Definition picked (o : Outcome ShellManager) : option ptr :=
  match o with
  | Returned s => Some (m_currentHandler s)
  | Aborted _ _ => None
  | Undefined _ => None
  end.

(** The specification's ordering: [a] is strictly preferred to [b] when
    [a] is willing and [b] is not, or when they are equally willing and
    [a] has the lower priority value. *)
Definition preferred (s : ShellManager) (a b : ptr) : Prop :=
  (willing s a = true ∧ willing s b = false) ∨
  (willing s a = willing s b ∧ priority s a < priority s b).

(** The pick the specification words ask for: the most preferred
    candidate, the first registered among equals.  [registration] lists
    the candidates in the order they were registered. *)
Definition first_registered_pick (s : ShellManager) (registration : list (string * ptr)) : option ptr :=
  min_element (compare s) (registration.*2).

Definition register_all (registration : list (string * ptr)) (s : ShellManager) : ShellManager :=
  foldl (λ s nh, registerHandler nh.1 nh.2 s) s registration.

(** Only the current handler may be loaded among the candidates. *)
Definition only_current_loaded (s : ShellManager) : Prop :=
  ∀ name h, m_handlers s !! name = Some h → loaded s h = true → h = m_currentHandler s.

(** Every candidate is a live object (so not the null pointer). *)
Definition candidates_live (s : ShellManager) : Prop :=
  ∀ name h, m_handlers s !! name = Some h → h ≠ nullptr ∧ is_Some (objects s !! h).

(** ** Concrete managers *)

(** Two live handler objects at addresses 1 and 2, none registered. *)
Definition two_objects (o1 o2 : Handler) : ShellManager :=
  mkShellManager ∅ nullptr (<[1%nat := o1]> (<[2%nat := o2]> ∅)) ∅ [].

(** Equal willingness and priority; "b" (object 1) is registered before
    "a" (object 2). *)
Definition tie_registration : list (string * ptr) := [("b", 1%nat); ("a", 2%nat)].
Definition tie_objects : ShellManager :=
  two_objects (mkHandler true 0 false "shell-b" "") (mkHandler true 0 false "shell-a" "").
Definition tie_manager : ShellManager := register_all tie_registration tie_objects.

(** The specification's scenario: a = (willing=false, prio=1),
    b = (willing=true, prio=5). *)
Definition scenario_manager : ShellManager :=
  register_all [("a", 1%nat); ("b", 2%nat)]
    (two_objects (mkHandler false 1 false "a" "") (mkHandler true 5 false "b" "")).

(** A manager with one handler, which is current and loaded. *)
Definition single_manager : ShellManager :=
  mkShellManager {[ "only" := 1%nat ]} 1%nat
                 {[ 1%nat := mkHandler true 0 true "only-shell" "/shells/only/contents/" ]}
                 {[ 1%nat ]} [].

(** The scenario's manager once "b" (object 2) has been made current. *)
Definition running_manager : ShellManager :=
  mkShellManager (<["a" := 1%nat]> (<["b" := 2%nat]> ∅)) 2%nat
                 (<[1%nat := mkHandler false 1 false "a" ""]>
                    (<[2%nat := mkHandler true 5 true "b" ""]> ∅))
                 ({[ 1%nat ]} ∪ {[ 2%nat ]}) [shellChanged "b"].

(** Two willing candidates whose objects both start out loaded, none
    current yet. *)
Definition preloaded_manager : ShellManager :=
  register_all [("a", 1%nat); ("b", 2%nat)]
    (two_objects (mkHandler true 0 true "shell-a" "") (mkHandler true 1 true "shell-b" "")).

(** A manager with nothing registered. *)
Definition empty_manager : ShellManager := mkShellManager ∅ nullptr ∅ ∅ [].

(** The manager [updateShell] leaves when it makes [handler] current in
    place of another handler (or of none). *)
Definition switched (handler : ptr) (s : ShellManager) : ShellManager :=
  emit (shellChanged (shell_of s handler))
       (setLoaded handler true
          (set_currentHandler handler
             (if non_null (m_currentHandler s)
              then setLoaded (m_currentHandler s) false s else s))).

(** A directory [loadHandlers] takes a handler from, unless its name is
    taken: its metadata is valid and its component creates an object. *)
Definition loadable (d : ShellDir) : Prop :=
  is_Some (internalName d) ∧ is_Some (component d).

(** The handler is registered under one name at most. *)
Definition registered_once (s : ShellManager) (handler : ptr) : Prop :=
  ∀ n1 n2, m_handlers s !! n1 = Some handler → m_handlers s !! n2 = Some handler → n1 = n2.

End ShellManager.

(** * DesktopShell: the window and workspace lists *)

Module DesktopShell.

Section WithWorkspace.

(** What a [Workspace] object holds (class [Workspace], workspace.h, not
    among the sources): the shell only stores, hands out and deletes these
    objects, so their content is left open. *)
Context {Workspace : Type}.

(** The shell's members as the code uses them ([m_windows], a list of
    [Window *]; [m_workspaces], a list of [Workspace *]), the workspace
    objects they point to, and the windows whose [unmapped] signal is
    connected to [windowUnmapped]. *)
Record Store : Type := mkStore {
  m_windows : list ptr;
  m_workspaces : list ptr;
  workspace_objects : gmap ptr Workspace;
  unmapped_connections : list ptr;
}.

Inductive Signal : Type :=
| windowsChanged
| workspacesChanged
| workspaceAdded (num : Z)
| workspaceRemoved (num : Z).

(** Requests sent to the compositor ([hawaii_desktop_shell_*]). *)
Inductive Request : Type :=
| add_workspace
| minimize_windows
| restore_windows
| desktop_ready.

(** What the shell does to the outside, in order: a signal emission
    (its slots run at once and see the store as it is then), a
    request to the compositor, the release of an object. *)
Inductive Action : Type :=
| Emit (sig : Signal) (seen : Store)
| Send (req : Request)
| Delete (obj : ptr).

Record DesktopShell : Type := mkDesktopShell {
  store : Store;
  trace : list Action;
}.

Definition emit (sig : Signal) (s : DesktopShell) : DesktopShell :=
  mkDesktopShell (store s) (trace s ++ [Emit sig (store s)]).
Definition send (req : Request) (s : DesktopShell) : DesktopShell :=
  mkDesktopShell (store s) (trace s ++ [Send req]).
Definition set_windows (l : list ptr) (s : DesktopShell) : DesktopShell :=
  mkDesktopShell
    (mkStore l (m_workspaces (store s)) (workspace_objects (store s))
             (unmapped_connections (store s)))
    (trace s).
Definition set_workspaces (l : list ptr) (s : DesktopShell) : DesktopShell :=
  mkDesktopShell
    (mkStore (m_windows (store s)) l (workspace_objects (store s))
             (unmapped_connections (store s)))
    (trace s).
Definition connect_unmapped (w : ptr) (s : DesktopShell) : DesktopShell :=
  mkDesktopShell
    (mkStore (m_windows (store s)) (m_workspaces (store s))
             (workspace_objects (store s)) (unmapped_connections (store s) ++ [w]))
    (trace s).
(** [delete workspace] *)
Definition delete_workspace (w : ptr) (s : DesktopShell) : DesktopShell :=
  mkDesktopShell
    (mkStore (m_windows (store s)) (m_workspaces (store s))
             (delete w (workspace_objects (store s))) (unmapped_connections (store s)))
    (trace s ++ [Delete w]).

(** The range assertion of [QList<T>::takeAt]. *)
Definition take_out_of_range : string :=
  "ASSERT failure in QList<T>::take: index out of range".

(** [void DesktopShell::minimizeWindows()] *)
Definition minimizeWindows (s : DesktopShell) : DesktopShell := send minimize_windows s.
(** [void DesktopShell::restoreWindows()] *)
Definition restoreWindows (s : DesktopShell) : DesktopShell := send restore_windows s.
(** [void DesktopShell::addWorkspace()] *)
Definition addWorkspace (s : DesktopShell) : DesktopShell := send add_workspace s.

(** [void DesktopShell::removeWorkspace(int num)] *)
Definition removeWorkspace (num : Z) (s : DesktopShell) : Outcome DesktopShell :=
  match takeAt (m_workspaces (store s)) num with
  | None => Undefined take_out_of_range
  | Some (workspace, rest) =>
      let s1 := set_workspaces rest s in
      if non_null workspace
      then Returned (delete_workspace workspace (emit (workspaceRemoved num) s1))
      else Returned s1
  end.

(** [void DesktopShell::appendWindow(Window *window)] *)
Definition appendWindow (window : ptr) (s : DesktopShell) : DesktopShell :=
  let s1 := set_windows (m_windows (store s) ++ [window]) s in
  let s2 := connect_unmapped window s1 in
  emit windowsChanged s2.

(** [void DesktopShell::appendWorkspace(Workspace *workspace)] *)
Definition appendWorkspace (workspace : ptr) (s : DesktopShell) : DesktopShell :=
  let s1 := set_workspaces (m_workspaces (store s) ++ [workspace]) s in
  let s2 := emit (workspaceAdded (indexOf (m_workspaces (store s1)) workspace)) s1 in
  emit workspacesChanged s2.

(** [int DesktopShell::windowsCount(...)], [workspacesCount(...)] *)
Definition windowsCount (s : DesktopShell) : Z := Z.of_nat (length (m_windows (store s))).
Definition workspacesCount (s : DesktopShell) : Z := Z.of_nat (length (m_workspaces (store s))).

(** [void DesktopShell::windowUnmapped(Window *window)] *)
Definition windowUnmapped (window : ptr) (s : DesktopShell) : DesktopShell :=
  emit windowsChanged (set_windows (removeOne (m_windows (store s)) window) s).

(** Every entry of the workspace list is a live workspace object. *)
Definition workspaces_live (s : DesktopShell) : Prop :=
  ∀ i workspace, m_workspaces (store s) !! i = Some workspace →
    workspace ≠ nullptr ∧ is_Some (workspace_objects (store s) !! workspace).

(** [Window *DesktopShell::windowAt(...)], [Workspace *DesktopShell::workspaceAt(...)] *)
Definition windowAt (s : DesktopShell) (index : Z) : option ptr :=
  at_index (m_windows (store s)) index.
Definition workspaceAt (s : DesktopShell) (index : Z) : option ptr :=
  at_index (m_workspaces (store s)) index.

(** A window emits its [unmapped] signal, with itself as the argument:
    [windowUnmapped] runs once for every connection [appendWindow] made to
    that window's signal (Qt keeps a connection made twice as two
    connections, and none of them is ever disconnected here). *)
Definition unmapped (window : ptr) (s : DesktopShell) : DesktopShell :=
  foldl (fun s' _ => windowUnmapped window s') s
        (filter (λ w, w = window) (unmapped_connections (store s))).

(** Emissions of one signal in a trace. *)
Definition is_emit (sig : Signal) (a : Action) : bool :=
  match a, sig with
  | Emit windowsChanged _, windowsChanged => true
  | Emit workspacesChanged _, workspacesChanged => true
  | Emit (workspaceAdded i) _, workspaceAdded j => bool_decide (i = j)
  | Emit (workspaceRemoved i) _, workspaceRemoved j => bool_decide (i = j)
  | _, _ => false
  end.
Definition count_emit (sig : Signal) (t : list Action) : nat :=
  length (List.filter (is_emit sig) t).

End WithWorkspace.

Arguments Store : clear implicits.
Arguments Action : clear implicits.
Arguments DesktopShell : clear implicits.

(** ** Services *)

(** [m_services], and the calls made to [ServiceFactory::createService]
    with the objects they returned. *)
Record Services : Type := mkServices {
  m_services : gmap string ptr;
  factory_calls : list (string * ptr);
}.

(** [QObject *DesktopShell::service(const QString &name)].  The factory is
    not among the sources: [made] is the object a call to
    [ServiceFactory::createService(name)] returns at this point ([nullptr]
    when it creates none). *)
Definition service (name : string) (made : ptr) (sv : Services) : ptr * Services :=
  let service := default nullptr (m_services sv !! name) in
  if non_null service then (service, sv)
  else
    let service := made in
    (service, mkServices (<[name := service]> (m_services sv))
                         (factory_calls sv ++ [(name, service)])).

(** ** Concrete shells; a workspace object holds the windows shown on it *)

Definition no_workspaces : DesktopShell (list ptr) :=
  mkDesktopShell (mkStore [] [] ∅ []) [].

(** Window 7 on the first of two workspaces (objects 10 and 11). *)
Definition two_workspaces : DesktopShell (list ptr) :=
  mkDesktopShell
    (mkStore [7%nat] [10%nat; 11%nat]
             (<[10%nat := [7%nat]]> (<[11%nat := []]> ∅)) [7%nat])
    [].

End DesktopShell.

(** * WaylandChrome.qml: the chrome of one window *)

Module WaylandChrome.

(** A [WaylandSurface], and a chrome item of the output. *)
Definition Surface := nat.
Definition Item := nat.

(** The [Qt::WindowType] values the handlers switch on. *)
Definition Qt_Window : Z := 1.
Definition Qt_Popup : Z := 9.
Definition Qt_SubWindow : Z := 18.

Inductive Animation : Type :=
| topLevelMapAnimation
| topLevelDestroyAnimation
| transientMapAnimation
| transientDestroyAnimation
| popupMapAnimation
| popupDestroyAnimation
| focusAnimation
| minimizeAnimation
| unminimizeAnimation.

(** What the handlers do to other items and to the scene, in order. *)
Inductive Action : Type :=
| Start (a : Animation)                 (* a.start() *)
| TakeFocus (parentSurfaceItem : Item)  (* parentSurfaceItem.takeFocus() *)
| DestroyChrome                         (* chrome.destroy() *)
| RaiseChrome                           (* chrome.raise() *)
| MoveToParent (parentSurfaceItem : Item)  (* moveItem at the parent's, plus offset *)
| MoveToRandomPosition.                 (* moveItem at chrome.randomPosition(...) *)

(** The properties of [shellSurface], set by the compositor side. *)
Record ShellSurface : Type := mkShellSurface {
  mapped : bool;
  ss_windowType : Z;
  ss_parentWlSurface : option Surface;
  activated : bool;
  minimized : bool;
}.

(** The chrome: the surface it shows, the two properties of
    [shellSurfaceItem] it saves for destruction ([windowType], initially
    [Qt.Window], and [parentWlSurface], initially [null]), and the output's
    [viewsBySurface] table. *)
Record Chrome : Type := mkChrome {
  shellSurface : ShellSurface;
  windowType : Z;
  parentWlSurface : option Surface;
  bufferLocked : bool;
  viewsBySurface : gmap Surface Item;
  actions : list Action;
}.

Definition initial (ss : ShellSurface) (views : gmap Surface Item) : Chrome :=
  mkChrome ss Qt_Window None false views [].

Definition act (a : Action) (c : Chrome) : Chrome :=
  mkChrome (shellSurface c) (windowType c) (parentWlSurface c) (bufferLocked c)
           (viewsBySurface c) (actions c ++ [a]).
Definition set_shellSurface (ss : ShellSurface) (c : Chrome) : Chrome :=
  mkChrome ss (windowType c) (parentWlSurface c) (bufferLocked c)
           (viewsBySurface c) (actions c).
Definition set_windowType (t : Z) (c : Chrome) : Chrome :=
  mkChrome (shellSurface c) t (parentWlSurface c) (bufferLocked c)
           (viewsBySurface c) (actions c).
Definition set_parentWlSurface (p : option Surface) (c : Chrome) : Chrome :=
  mkChrome (shellSurface c) (windowType c) p (bufferLocked c)
           (viewsBySurface c) (actions c).
Definition set_bufferLocked (b : bool) (c : Chrome) : Chrome :=
  mkChrome (shellSurface c) (windowType c) (parentWlSurface c) b
           (viewsBySurface c) (actions c).
Definition set_viewsBySurface (v : gmap Surface Item) (c : Chrome) : Chrome :=
  mkChrome (shellSurface c) (windowType c) (parentWlSurface c) (bufferLocked c)
           v (actions c).

(** [output.viewsBySurface[surface]]: [undefined] when the table has no
    entry for the surface, which holds for [null] as well. *)
Definition view_of (c : Chrome) (surface : option Surface) : option Item :=
  surface ≫= λ k, viewsBySurface c !! k.

(** [__private.setPosition()] *)
Definition setPosition (c : Chrome) : Chrome :=
  match view_of c (ss_parentWlSurface (shellSurface c)) with
  | Some parentSurfaceItem => act (MoveToParent parentSurfaceItem) c
  | None => act MoveToRandomPosition c
  end.

(** [__private.giveFocusToParent()] *)
Definition giveFocusToParent (c : Chrome) : Chrome :=
  match view_of c (parentWlSurface c) with
  | Some parentSurfaceItem => act (TakeFocus parentSurfaceItem) c
  | None => c
  end.

(** The [ScriptAction] that ends each destroy animation; the other
    animations end without running a script on the chrome. *)
Definition finished (a : Animation) (c : Chrome) : Chrome :=
  match a with
  | topLevelDestroyAnimation | transientDestroyAnimation | popupDestroyAnimation =>
      act DestroyChrome (giveFocusToParent c)
  | _ => c
  end.

(** [onSurfaceDestroyed] *)
Definition onSurfaceDestroyed (c : Chrome) : Chrome :=
  let c := set_bufferLocked true c in
  if decide (windowType c = Qt_Window) then act (Start topLevelDestroyAnimation) c
  else if decide (windowType c = Qt_SubWindow) then act (Start transientDestroyAnimation) c
  else if decide (windowType c = Qt_Popup) then act (Start popupDestroyAnimation) c
  else act DestroyChrome (giveFocusToParent c).

(** [onMappedChanged] *)
Definition onMappedChanged (c : Chrome) : Chrome :=
  if mapped (shellSurface c) then
    let c := setPosition c in
    if decide (windowType c = Qt_Window) then act (Start topLevelMapAnimation) c
    else if decide (windowType c = Qt_SubWindow) then act (Start transientMapAnimation) c
    else if decide (windowType c = Qt_Popup) then act (Start popupMapAnimation) c
    else c
  else c.

(** [onWindowTypeChanged] *)
Definition onWindowTypeChanged (c : Chrome) : Chrome :=
  set_windowType (ss_windowType (shellSurface c)) c.

(** [onParentWlSurfaceChanged] *)
Definition onParentWlSurfaceChanged (c : Chrome) : Chrome :=
  set_parentWlSurface (ss_parentWlSurface (shellSurface c)) c.

(** [onActivatedChanged] *)
Definition onActivatedChanged (c : Chrome) : Chrome :=
  if activated (shellSurface c) then act (Start focusAnimation) (act RaiseChrome c) else c.

(** [onMinimizedChanged] *)
Definition onMinimizedChanged (c : Chrome) : Chrome :=
  if minimized (shellSurface c) then act (Start minimizeAnimation) c
  else act (Start unminimizeAnimation) c.

(** The events that reach the chrome: the surface changes one of its
    properties and signals it, the surface is destroyed, an animation
    ends, the output's table of views changes. *)
Inductive Event : Type :=
| MappedChanged (b : bool)
| WindowTypeChanged (t : Z)
| ParentWlSurfaceChanged (p : option Surface)
| ActivatedChanged (b : bool)
| MinimizedChanged (b : bool)
| SurfaceDestroyed
| AnimationFinished (a : Animation)
| ViewsChanged (v : gmap Surface Item).

Definition deliver (c : Chrome) (e : Event) : Chrome :=
  let ss := shellSurface c in
  match e with
  | MappedChanged b =>
      onMappedChanged
        (set_shellSurface
           (mkShellSurface b (ss_windowType ss) (ss_parentWlSurface ss)
                           (activated ss) (minimized ss)) c)
  | WindowTypeChanged t =>
      onWindowTypeChanged
        (set_shellSurface
           (mkShellSurface (mapped ss) t (ss_parentWlSurface ss)
                           (activated ss) (minimized ss)) c)
  | ParentWlSurfaceChanged p =>
      onParentWlSurfaceChanged
        (set_shellSurface
           (mkShellSurface (mapped ss) (ss_windowType ss) p
                           (activated ss) (minimized ss)) c)
  | ActivatedChanged b =>
      onActivatedChanged
        (set_shellSurface
           (mkShellSurface (mapped ss) (ss_windowType ss) (ss_parentWlSurface ss)
                           b (minimized ss)) c)
  | MinimizedChanged b =>
      onMinimizedChanged
        (set_shellSurface
           (mkShellSurface (mapped ss) (ss_windowType ss) (ss_parentWlSurface ss)
                           (activated ss) b) c)
  | SurfaceDestroyed => onSurfaceDestroyed c
  | AnimationFinished a => finished a c
  | ViewsChanged v => set_viewsBySurface v c
  end.

Definition run (c : Chrome) (evs : list Event) : Chrome := foldl deliver c evs.

(** The destroy animation [onSurfaceDestroyed] starts for a window type,
    if it starts one. *)
Definition destroy_animation (t : Z) : option Animation :=
  if decide (t = Qt_Window) then Some topLevelDestroyAnimation
  else if decide (t = Qt_SubWindow) then Some transientDestroyAnimation
  else if decide (t = Qt_Popup) then Some popupDestroyAnimation
  else None.

(** Destruction from the surface's end to the chrome's: the handler, and
    the end of the animation it started. *)
Definition destroy (c : Chrome) : Chrome :=
  let c1 := onSurfaceDestroyed c in
  match destroy_animation (windowType c) with
  | Some a => finished a c1
  | None => c1
  end.

(** The latest value carried by the type, resp. parent, events of a
    sequence; the value before the sequence if it has none. *)
Fixpoint last_windowType (evs : list Event) (known : Z) : Z :=
  match evs with
  | [] => known
  | WindowTypeChanged t :: evs' => last_windowType evs' t
  | _ :: evs' => last_windowType evs' known
  end.
Fixpoint last_parentWlSurface (evs : list Event) (known : option Surface) : option Surface :=
  match evs with
  | [] => known
  | ParentWlSurfaceChanged p :: evs' => last_parentWlSurface evs' p
  | _ :: evs' => last_parentWlSurface evs' known
  end.

(** The map animation [onMappedChanged] starts for a window type, if it
    starts one, and what one delivery of it for a mapped surface does. *)
Definition map_animation (t : Z) : option Animation :=
  if decide (t = Qt_Window) then Some topLevelMapAnimation
  else if decide (t = Qt_SubWindow) then Some transientMapAnimation
  else if decide (t = Qt_Popup) then Some popupMapAnimation
  else None.
Definition map_actions (c : Chrome) : list Action :=
  match view_of c (ss_parentWlSurface (shellSurface c)) with
  | Some parentSurfaceItem => [MoveToParent parentSurfaceItem]
  | None => [MoveToRandomPosition]
  end
  ++ match map_animation (windowType c) with Some a => [Start a] | None => [] end.

(** ** Moving, minimizing and the pointer *)

Section Moving.

(** Coordinates (QML reals): the handlers below only store them and pass
    them on. *)
Context {R : Type}.

(** [ShellHelper.MoveGrabCursor], [ShellHelper.ArrowGrabCursor] *)
Inductive GrabCursor : Type :=
| MoveGrabCursor
| ArrowGrabCursor.

(** Calls made on the move item, the shell helper and the surface. *)
Inductive MoveRequest : Type :=
| animateTo (x y : R)            (* moveItem.animateTo(x, y) *)
| grabCursor (c : GrabCursor)    (* shellHelper.grabCursor(c) *)
| pingClient.                    (* shellSurface.pingClient() *)

(** The position of [shellSurfaceItem.moveItem], the position kept in
    [__private.moveItemPosition], the x and y of [taskIconGeometry],
    [shellSurfaceItem.moving], and the calls made so far. *)
Record MoveState : Type := mkMoveState {
  moveItem_x : R;
  moveItem_y : R;
  moveItemPosition : R * R;
  taskIconGeometry : R * R;
  moving : bool;
  requests : list MoveRequest;
}.

Definition request (r : MoveRequest) (st : MoveState) : MoveState :=
  mkMoveState (moveItem_x st) (moveItem_y st) (moveItemPosition st) (taskIconGeometry st)
              (moving st) (requests st ++ [r]).

(** The [ScriptAction] that opens [minimizeAnimation]. *)
Definition minimizeAnimation_script (st : MoveState) : MoveState :=
  request (animateTo (taskIconGeometry st).1 (taskIconGeometry st).2)
    (mkMoveState (moveItem_x st) (moveItem_y st) (moveItem_x st, moveItem_y st)
                 (taskIconGeometry st) (moving st) (requests st)).

(** The [ScriptAction] that opens [unminimizeAnimation]. *)
Definition unminimizeAnimation_script (st : MoveState) : MoveState :=
  request (animateTo (moveItemPosition st).1 (moveItemPosition st).2) st.

(** [onMovingChanged] *)
Definition onMovingChanged (st : MoveState) : MoveState :=
  request (grabCursor (if moving st then MoveGrabCursor else ArrowGrabCursor)) st.

(** An assignment to [moving]; the change handler runs when the value
    changes. *)
Definition set_moving (b : bool) (st : MoveState) : MoveState :=
  if decide (moving st = b) then st
  else onMovingChanged
         (mkMoveState (moveItem_x st) (moveItem_y st) (moveItemPosition st)
                      (taskIconGeometry st) b (requests st)).

(** [onStartMove] *)
Definition onStartMove (st : MoveState) : MoveState := set_moving true st.

(** [onMouseRelease] *)
Definition onMouseRelease (st : MoveState) : MoveState :=
  request pingClient (set_moving false st).

(** What reaches these handlers: the surface is minimized or restored
    (the animation started by [onMinimizedChanged] runs its script), a move
    starts, the mouse is released, the move item is somewhere else, the
    task icon is. *)
Inductive MoveEvent : Type :=
| Minimized
| Unminimized
| StartMove
| MouseRelease
| ItemMoved (x y : R)
| TaskIconMoved (x y : R).

Definition deliver_move (st : MoveState) (e : MoveEvent) : MoveState :=
  match e with
  | Minimized => minimizeAnimation_script st
  | Unminimized => unminimizeAnimation_script st
  | StartMove => onStartMove st
  | MouseRelease => onMouseRelease st
  | ItemMoved x y =>
      mkMoveState x y (moveItemPosition st) (taskIconGeometry st) (moving st) (requests st)
  | TaskIconMoved x y =>
      mkMoveState (moveItem_x st) (moveItem_y st) (moveItemPosition st) (x, y)
                  (moving st) (requests st)
  end.

Definition run_move (st : MoveState) (evs : list MoveEvent) : MoveState :=
  foldl deliver_move st evs.



End Moving.

Arguments MoveRequest : clear implicits.
Arguments MoveState : clear implicits.
Arguments MoveEvent : clear implicits.

(** ** Concrete chromes *)

(** A popup whose parent surface 5 has no view left on the output. *)
Definition orphan_popup : Chrome :=
  mkChrome (mkShellSurface true Qt_Popup (Some 5%nat) false false)
           Qt_Popup (Some 5%nat) false (<[3%nat := 30%nat]> ∅) [].

(** A mapped top-level window without parent. *)
Definition mapped_toplevel : Chrome :=
  initial (mkShellSurface true Qt_Window None false false) (<[3%nat := 30%nat]> ∅).

End WaylandChrome.

(** * Properties *)

(** ** [std::min_element] under a strict weak ordering *)

Section MinElement.

Context {A : Type} (comp : A → A → bool).
Hypothesis comp_trans : ∀ a b c, comp a b = true → comp b c = true → comp a c = true.
Hypothesis comp_cotrans : ∀ a b c, comp a c = true → comp a b = true ∨ comp b c = true.

(** The scan invariant: the elements before the kept one are strictly
    greater than it, none of those seen after it is smaller. *)
Lemma min_element_from_split (rest before : list A) (smallest : A) (seen : list A) :
  (∀ c, c ∈ before → comp smallest c = true) →
  (∀ c, c ∈ seen → comp c smallest = false) →
  ∃ l1 l2,
    before ++ smallest :: seen ++ rest = l1 ++ min_element_from comp smallest rest :: l2 ∧
    (∀ c, c ∈ l1 → comp (min_element_from comp smallest rest) c = true) ∧
    (∀ c, c ∈ l2 → comp c (min_element_from comp smallest rest) = false).
Proof.
  revert before smallest seen.
  induction rest as [|x rest IH]; intros before smallest seen Hbefore Hseen; simpl.
  - exists before, seen. by rewrite app_nil_r.
  - destruct (comp x smallest) eqn:Hx.
    + destruct (IH (before ++ smallest :: seen) x []) as (l1 & l2 & Heq & H1 & H2).
      * intros c Hc. apply elem_of_app in Hc as [Hc | Hc].
        { eapply comp_trans; eauto. }
        apply elem_of_cons in Hc as [-> | Hc]; [done |].
        destruct (comp_cotrans x c smallest Hx) as [? | Hcs]; [done |].
        rewrite (Hseen c Hc) in Hcs. discriminate.
      * intros c Hc. by apply elem_of_nil in Hc.
      * exists l1, l2. split; [| done].
        rewrite <- Heq. by rewrite <- app_assoc.
    + destruct (IH before smallest (seen ++ [x])) as (l1 & l2 & Heq & H1 & H2).
      * done.
      * intros c Hc. apply elem_of_app in Hc as [Hc | Hc]; [by apply Hseen |].
        apply list_elem_of_singleton in Hc as ->. done.
      * exists l1, l2. split; [| done].
        rewrite <- Heq. by rewrite <- (app_assoc seen).
Qed.

Lemma min_element_first_minimal (l : list A) :
  l ≠ [] →
  ∃ best l1 l2,
    min_element comp l = Some best ∧ l = l1 ++ best :: l2 ∧
    (∀ c, c ∈ l1 → comp best c = true) ∧
    (∀ c, c ∈ l2 → comp c best = false).
Proof.
  destruct l as [|x rest]; [done |]. intros _.
  destruct (min_element_from_split rest [] x []) as (l1 & l2 & Heq & H1 & H2).
  - intros c Hc. by apply elem_of_nil in Hc.
  - intros c Hc. by apply elem_of_nil in Hc.
  - exists (min_element_from comp x rest), l1, l2. done.
Qed.

End MinElement.

(** ** The shell handler selector *)

Section Selector.

Import ShellManager.

Lemma compare_preferred (s : ShellManager) (a b : ptr) :
  compare s a b = true ↔ preferred s a b.
Proof.
  unfold compare, preferred.
  destruct (willing s a), (willing s b); simpl; rewrite ?bool_decide_eq_true.
  - split; [by right | by intros [[_ ?] | [_ ?]]].
  - split; [by left | done].
  - split; [done | by intros [[? _] | [? _]]].
  - split; [by right | by intros [[? _] | [_ ?]]].
Qed.

Lemma compare_not_preferred (s : ShellManager) (a b : ptr) :
  compare s a b = false ↔ ¬ preferred s a b.
Proof.
  rewrite <- compare_preferred. destruct (compare s a b); naive_solver.
Qed.

Lemma preferred_irrefl (s : ShellManager) (a : ptr) : ¬ preferred s a a.
Proof. unfold preferred. intros [[H1 H2] | [_ H]]; [congruence | lia]. Qed.

Lemma preferred_trans (s : ShellManager) (a b c : ptr) :
  preferred s a b → preferred s b c → preferred s a c.
Proof.
  unfold preferred.
  intros [[Ha Hb] | [Hab Hlt]] [[Hb' Hc] | [Hbc Hlt']].
  - congruence.
  - left. split; congruence.
  - left. split; congruence.
  - right. split; [congruence | lia].
Qed.

Lemma preferred_cotrans (s : ShellManager) (a b c : ptr) :
  preferred s a c → preferred s a b ∨ preferred s b c.
Proof.
  unfold preferred. intros Hac.
  destruct (willing s a) eqn:Ha, (willing s b) eqn:Hb, (willing s c) eqn:Hc;
    destruct (decide (priority s a < priority s b)) as [Hlt | Hge];
    destruct Hac as [[? ?] | [? ?]]; try discriminate;
    first [ by left; left | by left; right | by right; left
          | right; right; split; [done | lia] ].
Qed.

Lemma preferred_asym (s : ShellManager) (a b : ptr) :
  preferred s a b → ¬ preferred s b a.
Proof. intros H1 H2. exact (preferred_irrefl s a (preferred_trans s a b a H1 H2)). Qed.

Lemma compare_trans (s : ShellManager) (a b c : ptr) :
  compare s a b = true → compare s b c = true → compare s a c = true.
Proof. rewrite !compare_preferred. apply preferred_trans. Qed.

Lemma compare_cotrans (s : ShellManager) (a b c : ptr) :
  compare s a c = true → compare s a b = true ∨ compare s b c = true.
Proof. rewrite !compare_preferred. apply preferred_cotrans. Qed.

Lemma values_nonempty (m : gmap string ptr) : m ≠ ∅ → values m ≠ [].
Proof.
  intros Hm Hnil. apply Hm. apply map_to_list_empty_iff.
  unfold values in Hnil. by apply fmap_nil_inv in Hnil.
Qed.

Lemma elem_of_values (m : gmap string ptr) (h : ptr) :
  h ∈ values m ↔ ∃ name, m !! name = Some h.
Proof.
  unfold values. rewrite list_elem_of_fmap. split.
  - intros ([name h'] & -> & Hin). exists name. by apply elem_of_map_to_list in Hin.
  - intros [name Hname]. exists (name, h). split; [done |]. by apply elem_of_map_to_list.
Qed.

(** The handler [updateShell] selects on a non-empty candidate map. *)
Lemma selected_first_minimal (s : ShellManager) :
  m_handlers s ≠ ∅ →
  ∃ best before after,
    min_element (compare s) (values (m_handlers s)) = Some best ∧
    values (m_handlers s) = before ++ best :: after ∧
    (∀ c, c ∈ before → preferred s best c) ∧
    (∀ c, c ∈ after → ¬ preferred s c best).
Proof.
  intros Hne.
  destruct (min_element_first_minimal (compare s) (compare_trans s) (compare_cotrans s)
              (values (m_handlers s)) (values_nonempty _ Hne))
    as (best & l1 & l2 & Hmin & Hsplit & H1 & H2).
  exists best, l1, l2. repeat split; try done.
  - intros c Hc. apply compare_preferred. by apply H1.
  - intros c Hc. apply compare_not_preferred. by apply H2.
Qed.

Lemma shell_of_setLoaded (s : ShellManager) (h h' : ptr) (b : bool) :
  shell_of (setLoaded h b s) h' = shell_of s h'.
Proof.
  unfold shell_of, setLoaded. simpl. rewrite lookup_alter.
  case_decide; [subst |]; [by destruct (objects s !! h') | done].
Qed.

Lemma loaded_setLoaded_eq (s : ShellManager) (h : ptr) (b : bool) :
  is_Some (objects s !! h) → loaded (setLoaded h b s) h = b.
Proof.
  intros [o Ho]. unfold loaded, setLoaded. simpl.
  rewrite lookup_alter. case_decide; [| done]. by rewrite Ho.
Qed.

Lemma loaded_setLoaded_false (s : ShellManager) (h : ptr) :
  loaded (setLoaded h false s) h = false.
Proof.
  unfold loaded, setLoaded. simpl. rewrite lookup_alter.
  case_decide; [| done]. by destruct (objects s !! h).
Qed.

Lemma loaded_setLoaded_ne (s : ShellManager) (h h' : ptr) (b : bool) :
  h ≠ h' → loaded (setLoaded h b s) h' = loaded s h'.
Proof.
  intros Hne. unfold loaded, setLoaded. simpl.
  rewrite lookup_alter. by case_decide.
Qed.

Lemma current_set_currentHandler (s : ShellManager) (h : ptr) :
  m_currentHandler (set_currentHandler h s) = h.
Proof. done. Qed.

Lemma current_setLoaded (s : ShellManager) (h : ptr) (b : bool) :
  m_currentHandler (setLoaded h b s) = m_currentHandler s.
Proof. done. Qed.

Lemma shell_of_set_currentHandler (s : ShellManager) (h h' : ptr) :
  shell_of (set_currentHandler h s) h' = shell_of s h'.
Proof. done. Qed.

(** What [updateShell] computes once the candidate map is not empty. *)
Lemma updateShell_selected (s : ShellManager) (best : ptr) :
  m_handlers s ≠ ∅ →
  min_element (compare s) (values (m_handlers s)) = Some best →
  updateShell s =
    if decide (m_currentHandler s = best) then Returned s
    else Returned
           (emit (shellChanged (shell_of s best))
              (setLoaded best true
                 (set_currentHandler best
                    (if non_null (m_currentHandler s)
                     then setLoaded (m_currentHandler s) false s else s)))).
Proof.
  intros Hne Hmin. unfold updateShell.
  destruct (decide (m_handlers s = ∅)); [done |].
  rewrite Hmin. destruct (decide (m_currentHandler s = best)); [done |].
  cbv zeta. rewrite current_set_currentHandler, current_setLoaded.
  rewrite current_set_currentHandler, shell_of_setLoaded, shell_of_set_currentHandler.
  destruct (non_null (m_currentHandler s)); [| done].
  by rewrite shell_of_setLoaded.
Qed.

(** C1 (as amended).  On a non-empty candidate map [updateShell] returns
    with a current handler that is a candidate to which no candidate is
    strictly preferred: it is willing whenever some candidate is, and among
    the candidates of its willingness it has the least priority value.
    Among equally preferred candidates it is the one that comes first in
    the candidate map's enumeration of its values ([m_handlers.values()]):
    every candidate enumerated before it is strictly less preferred. *)
Theorem updateShell_picks_first_most_preferred (s : ShellManager) :
  m_handlers s ≠ ∅ →
  ∃ s' before after,
    updateShell s = Returned s' ∧
    values (m_handlers s) = before ++ m_currentHandler s' :: after ∧
    (∀ c, c ∈ values (m_handlers s) → ¬ preferred s c (m_currentHandler s')) ∧
    (∀ c, c ∈ values (m_handlers s) →
          willing s c = true → willing s (m_currentHandler s') = true) ∧
    (∀ c, c ∈ values (m_handlers s) →
          willing s c = willing s (m_currentHandler s') →
          priority s (m_currentHandler s') ≤ priority s c) ∧
    (∀ c, c ∈ before → preferred s (m_currentHandler s') c).
Proof.
  intros Hne.
  destruct (selected_first_minimal s Hne) as (best & before & after & Hmin & Hsplit & Hb & Ha).
  assert (Hnone : ∀ c, c ∈ values (m_handlers s) → ¬ preferred s c best).
  { intros c Hc. rewrite Hsplit in Hc.
    apply elem_of_app in Hc as [Hc | Hc]; [by apply preferred_asym, Hb |].
    apply elem_of_cons in Hc as [-> | Hc]; [apply preferred_irrefl | by apply Ha]. }
  assert (Hcur : ∃ s', updateShell s = Returned s' ∧ m_currentHandler s' = best).
  { rewrite (updateShell_selected s best Hne Hmin).
    destruct (decide (m_currentHandler s = best)); eauto. }
  destruct Hcur as (s' & Hrun & Hbest). rewrite <- Hbest in *.
  exists s', before, after. repeat split; try done.
  - intros c Hc Hw. destruct (willing s (m_currentHandler s')) eqn:Hwb; [done |].
    exfalso. apply (Hnone c Hc). by left.
  - intros c Hc Hw. destruct (decide (priority s c < priority s (m_currentHandler s'))); [| lia].
    exfalso. apply (Hnone c Hc). by right.
Qed.

Lemma scenario_manager_nonempty : m_handlers scenario_manager ≠ ∅.
Proof. intros H. vm_compute in H. discriminate H. Qed.

Lemma updateShell_picks_first_most_preferred_witness :
  m_handlers scenario_manager ≠ ∅ ∧
  ∃ s', updateShell scenario_manager = Returned s' ∧
        willing scenario_manager (m_currentHandler s') = true.
Proof.
  split; [exact scenario_manager_nonempty |].
  destruct (updateShell_picks_first_most_preferred scenario_manager scenario_manager_nonempty)
    as (s' & before & after & Hrun & Hsplit & _ & Hwilling & _).
  exists s'. split; [exact Hrun |].
  apply (Hwilling 2%nat); [| reflexivity].
  apply elem_of_values. exists "b". reflexivity.
Defined.

(** C1, refuted as stated.  "b" is registered first, "a" second, with the
    same willingness and priority: the first-registered rule asks for "b"
    (object 1), [updateShell] makes "a" (object 2) current, as it does when
    "a" is registered first. *)
Lemma updateShell_tie_not_first_registered :
  first_registered_pick tie_manager tie_registration = Some 1%nat ∧
  picked (updateShell tie_manager) = Some 2%nat ∧
  picked (updateShell (register_all (reverse tie_registration) tie_objects)) = Some 2%nat.
Proof. repeat split; vm_compute; reflexivity. Qed.

(** C3.  With no candidate registered every evaluation of the selector
    stops the process with the diagnostic, in the state it was called in:
    [updateShell] itself, [loadHandlers] when no directory yields a handler,
    a property change of a connected handler, and the deregistration of the
    current handler when it was the only candidate. *)
Theorem selector_without_candidates_is_fatal (s : ShellManager) :
  m_handlers s = ∅ →
  updateShell s = Aborted fatal_no_handlers s ∧
  (∀ datadir entryList,
      Forall (λ d, internalName d = None ∨ component d = None) entryList →
      loadHandlers datadir entryList s = Aborted fatal_no_handlers s) ∧
  (∀ h b, h ∈ connections s →
      ∃ s1, willingChanged h b s = Aborted fatal_no_handlers s1 ∧ emitted s1 = emitted s) ∧
  (∀ h n, h ∈ connections s →
      ∃ s1, priorityChanged h n s = Aborted fatal_no_handlers s1 ∧ emitted s1 = emitted s) ∧
  (∀ s0 name, m_handlers s0 = {[name := m_currentHandler s0]} →
      ∃ s1, deregisterHandler (m_currentHandler s0) s0 = Aborted fatal_no_handlers s1 ∧
            m_handlers s1 = ∅ ∧ emitted s1 = emitted s0).
Proof.
  intros Hempty.
  assert (Hfatal : ∀ s1, m_handlers s1 = ∅ → updateShell s1 = Aborted fatal_no_handlers s1).
  { intros s1 H1. unfold updateShell. by destruct (decide (m_handlers s1 = ∅)). }
  split; [by apply Hfatal |]. split; [| split; [| split]].
  - intros datadir entryList Hall. unfold loadHandlers.
    assert (Hsame : foldl (loadHandler (datadir +:+ "/hawaii/shells")) s entryList = s).
    { induction Hall as [|d l Hd _ IH]; [done |]. simpl.
      replace (loadHandler (datadir +:+ "/hawaii/shells") s d) with s; [exact IH |].
      unfold loadHandler. destruct (internalName d) as [name|]; [| done].
      destruct (decide (is_Some (m_handlers s !! name))); [done |].
      destruct Hd as [Hd | Hd]; [discriminate | by rewrite Hd]. }
    rewrite Hsame. by apply Hfatal.
  - intros h b Hh. unfold willingChanged. simpl.
    destruct (decide (h ∈ connections s)); [| done].
    eexists. split; [by apply Hfatal | done].
  - intros h n Hh. unfold priorityChanged. simpl.
    destruct (decide (h ∈ connections s)); [| done].
    eexists. split; [by apply Hfatal | done].
  - intros s0 name Hsingle. unfold deregisterHandler. simpl.
    destruct (decide (m_currentHandler s0 = m_currentHandler s0)); [| done].
    assert (Hkey : key (m_handlers s0) (m_currentHandler s0) = name).
    { unfold key. rewrite Hsingle, map_to_list_singleton. simpl.
      rewrite filter_cons_True by done. done. }
    rewrite Hkey, Hsingle, delete_singleton_eq.
    eexists. split; [by apply Hfatal | done].
Qed.

Lemma selector_without_candidates_is_fatal_witness :
  m_handlers empty_manager = ∅ ∧
  updateShell empty_manager = Aborted fatal_no_handlers empty_manager ∧
  ∃ s1, deregisterHandler 1%nat single_manager = Aborted fatal_no_handlers s1.
Proof.
  split; [reflexivity |].
  destruct (selector_without_candidates_is_fatal empty_manager eq_refl)
    as (Hrun & _ & _ & _ & Hlast).
  split; [exact Hrun |].
  destruct (Hlast single_manager "only" eq_refl) as (s1 & Hs1 & _).
  exists s1. exact Hs1.
Defined.

Lemma loaded_emit (s : ShellManager) (sig : Signal) (h : ptr) :
  loaded (emit sig s) h = loaded s h.
Proof. done. Qed.

Lemma loaded_set_currentHandler (s : ShellManager) (h h' : ptr) :
  loaded (set_currentHandler h s) h' = loaded s h'.
Proof. done. Qed.

(** C4 (as amended).  On a non-empty map of live candidates, let [best] be
    the handler the selection finds.  If it is the current handler,
    [updateShell] returns the manager as it was: nothing changes, nothing
    is emitted.  Otherwise it returns with [best] current, the prior
    handler (if there was one) not loaded, [best] loaded, every other
    object untouched, and exactly one more notification, [shellChanged]
    carrying the [shell] property of [best] (not the name [best] is
    registered under).  If only the current handler could be loaded before
    the evaluation, only the current handler can be loaded after it, and
    no two candidates are loaded; the evaluation does not establish this
    for candidates that were loaded without being current. *)
Theorem updateShell_switches_once (s : ShellManager) :
  m_handlers s ≠ ∅ →
  candidates_live s →
  ∃ best,
    min_element (compare s) (values (m_handlers s)) = Some best ∧
    (m_currentHandler s = best → updateShell s = Returned s) ∧
    (m_currentHandler s ≠ best →
       ∃ s', updateShell s = Returned s' ∧
             m_currentHandler s' = best ∧
             m_handlers s' = m_handlers s ∧
             (m_currentHandler s ≠ nullptr → loaded s' (m_currentHandler s) = false) ∧
             loaded s' best = true ∧
             (∀ h, h ≠ best → h ≠ m_currentHandler s → objects s' !! h = objects s !! h) ∧
             emitted s' = emitted s ++ [shellChanged (shell_of s best)]) ∧
    (only_current_loaded s →
       ∃ s', updateShell s = Returned s' ∧ only_current_loaded s' ∧
             ∀ n1 h1 n2 h2,
               m_handlers s' !! n1 = Some h1 → m_handlers s' !! n2 = Some h2 →
               loaded s' h1 = true → loaded s' h2 = true → h1 = h2).
Proof.
  intros Hne Hlive.
  destruct (selected_first_minimal s Hne) as (best & before & after & Hmin & Hsplit & _ & _).
  assert (Hbest_live : is_Some (objects s !! best)).
  { assert (Hin : best ∈ values (m_handlers s)).
    { rewrite Hsplit. apply elem_of_app. right. apply elem_of_cons. by left. }
    apply elem_of_values in Hin as [name Hname]. by eapply Hlive. }
  pose proof (updateShell_selected s best Hne Hmin) as Hrun.
  exists best. split; [done |]. split; [| split].
  - intros Hcur. rewrite Hrun. by destruct (decide (m_currentHandler s = best)).
  - intros Hcur. rewrite Hrun.
    destruct (decide (m_currentHandler s = best)) as [|_]; [done |].
    eexists. split; [reflexivity |].
    unfold non_null. destruct (bool_decide_reflect (m_currentHandler s = nullptr)) as [Hnull | Hnull];
      simpl.
    + repeat split; try done.
      * rewrite loaded_emit. apply loaded_setLoaded_eq. done.
      * intros h Hh _. unfold setLoaded. simpl. rewrite lookup_alter. by case_decide.
    + repeat split; try done.
      * intros _. rewrite loaded_emit, loaded_setLoaded_ne by done.
        rewrite loaded_set_currentHandler. apply loaded_setLoaded_false.
      * rewrite loaded_emit. apply loaded_setLoaded_eq. simpl.
        rewrite lookup_alter. case_decide; [done |]. done.
      * intros h Hh Hh'. unfold setLoaded. simpl. rewrite !lookup_alter.
        do 2 (case_decide; [congruence |]). done.
  - intros Hinv. rewrite Hrun.
    destruct (decide (m_currentHandler s = best)) as [Hcur | Hcur].
    + exists s. split; [done |]. split; [done |].
      intros n1 h1 n2 h2 H1 H2 L1 L2.
      rewrite (Hinv n1 h1 H1 L1), (Hinv n2 h2 H2 L2). done.
    + eexists. split; [reflexivity |].
      assert (Honly : ∀ h, loaded
                (emit (shellChanged (shell_of s best))
                   (setLoaded best true
                      (set_currentHandler best
                         (if non_null (m_currentHandler s)
                          then setLoaded (m_currentHandler s) false s else s)))) h = true →
              (∃ name, m_handlers s !! name = Some h) → h = best).
      { intros h Hl [name Hname]. destruct (decide (h = best)) as [| Hh]; [done |]. exfalso.
        rewrite loaded_emit, loaded_setLoaded_ne, loaded_set_currentHandler in Hl by done.
        destruct (decide (h = m_currentHandler s)) as [-> | Hh'].
        - unfold non_null in Hl.
          destruct (bool_decide_reflect (m_currentHandler s = nullptr)) as [Hnull | Hnull];
            simpl in Hl.
          + by destruct (Hlive name _ Hname) as [Hnn _].
          + rewrite loaded_setLoaded_false in Hl. discriminate.
        - apply Hh'. apply (Hinv name h Hname).
          destruct (non_null (m_currentHandler s)); [| done].
          by rewrite loaded_setLoaded_ne in Hl. }
      assert (Hmap : ∀ name h,
                m_handlers
                  (emit (shellChanged (shell_of s best))
                     (setLoaded best true
                        (set_currentHandler best
                           (if non_null (m_currentHandler s)
                            then setLoaded (m_currentHandler s) false s else s)))) !! name = Some h →
                m_handlers s !! name = Some h).
      { intros name h. simpl. by destruct (non_null (m_currentHandler s)). }
      split.
      * intros name h Hname Hl. rewrite (Honly h Hl); [done |]. exists name. by apply Hmap.
      * intros n1 h1 n2 h2 H1 H2 L1 L2.
        rewrite (Honly h1 L1), (Honly h2 L2); [done | |]; eexists; by apply Hmap.
Qed.

Lemma scenario_manager_live : candidates_live scenario_manager.
Proof.
  intros name h Hname. unfold scenario_manager, register_all in Hname. simpl in Hname.
  apply lookup_insert_Some in Hname as [[_ <-] | [_ Hname]].
  { split; [done |]. by eexists. }
  apply lookup_insert_Some in Hname as [[_ <-] | [_ Hname]].
  { split; [done |]. by eexists. }
  by rewrite lookup_empty in Hname.
Qed.

Lemma tie_manager_nonempty : m_handlers tie_manager ≠ ∅.
Proof. intros H. vm_compute in H. discriminate H. Qed.

Lemma tie_manager_live : candidates_live tie_manager.
Proof.
  intros name h Hname. unfold tie_manager, register_all in Hname. simpl in Hname.
  apply lookup_insert_Some in Hname as [[_ <-] | [_ Hname]].
  { split; [done |]. by eexists. }
  apply lookup_insert_Some in Hname as [[_ <-] | [_ Hname]].
  { split; [done |]. by eexists. }
  by rewrite lookup_empty in Hname.
Qed.

Lemma updateShell_switches_once_witness :
  m_handlers tie_manager ≠ ∅ ∧ candidates_live tie_manager ∧
  ∃ s', updateShell tie_manager = Returned s' ∧
        m_currentHandler s' = 2%nat ∧ loaded s' 2%nat = true ∧
        emitted s' = [shellChanged "shell-a"].
Proof.
  split; [exact tie_manager_nonempty |]. split; [exact tie_manager_live |].
  destruct (updateShell_switches_once tie_manager tie_manager_nonempty tie_manager_live)
    as (best & Hmin & _ & Hswitch & _).
  assert (Hbest : best = 2%nat).
  { vm_compute in Hmin. by injection Hmin. }
  subst best.
  destruct Hswitch as (s' & Hrun & Hcur & _ & _ & Hloaded & _ & Hemit); [done |].
  exists s'. by repeat split.
Defined.

(** C4, refuted as stated.  On the manager with "b" and "a" registered,
    [updateShell] makes current the handler registered under the name "a",
    and the notification carries "shell-a", that handler's [shell]
    property, not its name.  And on a manager whose two candidates start
    out loaded, both candidates are loaded after the evaluation. *)
Lemma updateShell_payload_is_shell_property :
  (∃ s', updateShell tie_manager = Returned s' ∧
         m_handlers tie_manager !! "a" = Some (m_currentHandler s') ∧
         key (m_handlers tie_manager) (m_currentHandler s') = "a" ∧
         emitted s' = [shellChanged "shell-a"]) ∧
  (∃ s', updateShell preloaded_manager = Returned s' ∧
         m_handlers s' !! "a" = Some 1%nat ∧ m_handlers s' !! "b" = Some 2%nat ∧
         loaded s' 1%nat = true ∧ loaded s' 2%nat = true).
Proof.
  split; (eexists; split; [vm_compute; reflexivity |]);
    repeat split; vm_compute; reflexivity.
Qed.

(** The specification's scenario, run: with a = (willing=false,
    prio=1) and b = (willing=true, prio=5) the selector picks "b"; once "a"
    turns willing and then takes priority 0 the current handler is "a",
    only "a" is loaded, and the two property changes together add one
    notification. *)
Example scenario_flip :
  bind (bind (updateShell scenario_manager) (willingChanged 1%nat true)) (priorityChanged 1%nat 0)
  = Returned
      (mkShellManager (m_handlers scenario_manager) 1%nat
         (<[1%nat := mkHandler true 0 true "a" ""]>
            (<[2%nat := mkHandler true 5 false "b" ""]> ∅))
         (connections scenario_manager)
         [shellChanged "b"; shellChanged "a"]).
Proof. vm_compute. reflexivity. Qed.

Lemma key_lookup (m : gmap string ptr) (h : ptr) :
  h ∈ values m → m !! key m h = Some h.
Proof.
  intros Hin. apply elem_of_values in Hin as [name Hname].
  unfold key.
  destruct (filter (λ kv : string * ptr, kv.2 = h) (map_to_list m)) as [|kv l] eqn:Hf.
  - exfalso. apply elem_of_map_to_list in Hname.
    assert (Hin : (name, h) ∈ filter (λ kv : string * ptr, kv.2 = h) (map_to_list m)).
    { by apply list_elem_of_filter. }
    rewrite Hf in Hin. by apply elem_of_nil in Hin.
  - assert (Hkv : kv ∈ filter (λ kv : string * ptr, kv.2 = h) (map_to_list m)).
    { rewrite Hf. apply elem_of_cons. by left. }
    apply list_elem_of_filter in Hkv as [Hval Hkv]. destruct kv as [k v]. simpl in *.
    subst v. by apply elem_of_map_to_list in Hkv.
Qed.

(** C9.  Deregistering a registered handler that is not the current one
    returns, having removed one map entry that held it and nothing else:
    the current-handler pointer, every handler object (so every loaded
    flag), the current shell name and the notifications emitted are those
    from before the call. *)
Theorem deregisterHandler_not_current_frame (s : ShellManager) (handler : ptr) :
  handler ∈ values (m_handlers s) →
  m_currentHandler s ≠ handler →
  ∃ name s',
    m_handlers s !! name = Some handler ∧
    deregisterHandler handler s = Returned s' ∧
    m_handlers s' = delete name (m_handlers s) ∧
    (∀ other, other ≠ name → m_handlers s' !! other = m_handlers s !! other) ∧
    m_currentHandler s' = m_currentHandler s ∧
    objects s' = objects s ∧
    (∀ h, loaded s' h = loaded s h) ∧
    shell s' = shell s ∧
    emitted s' = emitted s.
Proof.
  intros Hin Hcur.
  exists (key (m_handlers s) handler). eexists.
  split; [by apply key_lookup |].
  unfold deregisterHandler. simpl.
  destruct (decide (m_currentHandler s = handler)); [done |].
  split; [reflexivity |]. simpl. repeat split; try done.
  intros other Hother. by rewrite lookup_delete_ne.
Qed.

Lemma deregisterHandler_not_current_frame_witness :
  1%nat ∈ values (m_handlers tie_manager) ∧ m_currentHandler tie_manager ≠ 1%nat ∧
  ∃ s', deregisterHandler 1%nat tie_manager = Returned s' ∧
        m_handlers s' = delete "b" (m_handlers tie_manager) ∧
        emitted s' = emitted tie_manager.
Proof.
  assert (Hin : 1%nat ∈ values (m_handlers tie_manager)).
  { apply elem_of_values. exists "b". reflexivity. }
  assert (Hcur : m_currentHandler tie_manager ≠ 1%nat) by (vm_compute; discriminate).
  split; [exact Hin |]. split; [exact Hcur |].
  destruct (deregisterHandler_not_current_frame tie_manager 1%nat Hin Hcur)
    as (name & s' & Hname & Hrun & Hmap & _ & _ & _ & _ & _ & Hemit).
  assert (Hb : name = "b").
  { unfold tie_manager, register_all in Hname. simpl in Hname.
    apply lookup_insert_Some in Hname as [[_ Habs] | [_ Hname]]; [discriminate |].
    apply lookup_insert_Some in Hname as [[Heq _] | [_ Habs]]; [done |].
    by rewrite lookup_empty in Habs. }
  subst name. exists s'. by repeat split.
Defined.

(** C10.  With no current handler both accessors still answer: [shell()]
    gives the empty string and [shellDirectory()] the default-constructed
    directory. *)
Theorem accessors_without_current_handler (s : ShellManager) :
  m_currentHandler s = nullptr →
  shell s = "" ∧ shellDirectory s = QDir_default.
Proof.
  intros Hnull. unfold shell, shellDirectory. rewrite Hnull. split; reflexivity.
Qed.

Lemma accessors_without_current_handler_witness :
  m_currentHandler scenario_manager = nullptr ∧
  shell scenario_manager = "" ∧ shellDirectory scenario_manager = QDir_default.
Proof.
  split; [reflexivity |].
  exact (accessors_without_current_handler scenario_manager eq_refl).
Defined.

End Selector.

(** ** The workspace and window lists *)

Section Workspaces.

Import DesktopShell.

Context {Workspace : Type}.
Implicit Types (s : DesktopShell Workspace) (num : Z).

Lemma takeAt_out_of_range {A} (l : list A) (i : Z) :
  ¬ (0 ≤ i < Z.of_nat (length l)) → takeAt l i = None.
Proof. intros Hout. unfold takeAt. by destruct (decide (0 ≤ i < Z.of_nat (length l))). Qed.

Lemma takeAt_in_range {A} (l : list A) (i : Z) (x : A) :
  0 ≤ i → l !! Z.to_nat i = Some x → takeAt l i = Some (x, delete (Z.to_nat i) l).
Proof.
  intros Hpos Hx. unfold takeAt.
  destruct (decide (0 ≤ i < Z.of_nat (length l))) as [_ | Hout].
  - by rewrite Hx.
  - exfalso. apply Hout. apply lookup_lt_Some in Hx. lia.
Qed.

(** C2 (the code at its failing inputs).  [removeWorkspace] makes no
    range check of its own: for every index that is not a valid current
    index the index reaches [QList::takeAt] outside that call's contract,
    and from there on the behaviour is undefined (a build with assertions
    stops at the range assertion).  The call neither returns with an
    out-of-range condition nor returns at all in the model, and nothing
    guarantees that the workspace collection is left as it was. *)
Theorem removeWorkspace_invalid_index_is_undefined s num :
  ¬ (0 ≤ num < workspacesCount s) →
  takeAt (m_workspaces (store s)) num = None ∧
  removeWorkspace num s = Undefined take_out_of_range ∧
  ∀ s', removeWorkspace num s ≠ Returned s'.
Proof.
  intros Hout. pose proof (takeAt_out_of_range _ _ Hout) as Hnone.
  split; [exact Hnone |].
  assert (Hrun : removeWorkspace num s = Undefined take_out_of_range).
  { unfold removeWorkspace. by rewrite Hnone. }
  split; [exact Hrun |]. intros s' Hret. rewrite Hrun in Hret. discriminate.
Qed.


Lemma indexOf_from_app_fresh (l : list ptr) (v : ptr) (i : Z) :
  v ∉ l → indexOf_from (l ++ [v]) v i = i + Z.of_nat (length l).
Proof.
  revert i. induction l as [|x l IH]; intros i Hfresh; simpl.
  - destruct (decide (v = v)); [lia | done].
  - apply not_elem_of_cons in Hfresh as [Hne Hfresh].
    destruct (decide (x = v)); [by subst |].
    rewrite IH by done. lia.
Qed.

(** X2.  Appending a workspace object that is not in the list yet puts it
    at the end, then notifies [workspaceAdded] with the index it got (the
    number of workspaces before), then [workspacesChanged]; both
    notifications see the list with the new workspace in it. *)
Theorem appendWorkspace_notifies_new_index s (workspace : ptr) :
  workspace ∉ m_workspaces (store s) →
  m_workspaces (store (appendWorkspace workspace s)) = m_workspaces (store s) ++ [workspace] ∧
  ∃ seen,
    trace (appendWorkspace workspace s)
    = trace s ++ [Emit (workspaceAdded (workspacesCount s)) seen; Emit workspacesChanged seen] ∧
    m_workspaces seen = m_workspaces (store s) ++ [workspace].
Proof.
  intros Hfresh. split; [done |].
  eexists. unfold appendWorkspace, emit. simpl. rewrite <- app_assoc. simpl.
  unfold indexOf. rewrite indexOf_from_app_fresh by done.
  unfold workspacesCount. rewrite Z.add_0_l. split; reflexivity.
Qed.

Lemma appendWindow_iter s (window : ptr) (n : nat) :
  m_windows (store (Nat.iter n (appendWindow window) s))
    = m_windows (store s) ++ replicate n window ∧
  count_emit windowsChanged (trace (Nat.iter n (appendWindow window) s))
    = (count_emit windowsChanged (trace s) + n)%nat.
Proof.
  induction n as [|n [IHw IHc]]; simpl.
  - split; [by rewrite app_nil_r | lia].
  - split.
    + rewrite IHw, <- app_assoc. by rewrite <- replicate_cons_app.
    + unfold count_emit in *. rewrite List.filter_app, length_app. simpl.
      rewrite IHc. lia.
Qed.

End Workspaces.

Section WorkspaceExamples.

Import DesktopShell.

(** [removeWorkspace] at indices that are not valid: with no workspace
    at all, past the end, and below zero. *)
Example removeWorkspace_out_of_range :
  removeWorkspace 0 no_workspaces = Undefined take_out_of_range ∧
  removeWorkspace 2 two_workspaces = Undefined take_out_of_range ∧
  removeWorkspace (-1) two_workspaces = Undefined take_out_of_range.
Proof. repeat split; reflexivity. Qed.

Lemma removeWorkspace_invalid_index_is_undefined_witness :
  ¬ (0 ≤ 0 < workspacesCount no_workspaces) ∧
  removeWorkspace 0 no_workspaces = Undefined take_out_of_range.
Proof.
  assert (Hout : ¬ (0 ≤ 0 < workspacesCount no_workspaces)).
  { unfold workspacesCount. simpl. lia. }
  split; [exact Hout |].
  destruct (removeWorkspace_invalid_index_is_undefined no_workspaces 0 Hout) as (_ & Hrun & _).
  exact Hrun.
Defined.

Lemma two_workspaces_live : workspaces_live two_workspaces.
Proof.
  intros i workspace Hat. simpl in Hat.
  destruct i as [|[|i]]; simpl in Hat; [| | done];
    injection Hat as <-; (split; [done | by eexists]).
Qed.


Lemma appendWorkspace_notifies_new_index_witness :
  (12%nat ∉ m_workspaces (store two_workspaces)) ∧
  m_workspaces (store (appendWorkspace 12%nat two_workspaces)) = [10%nat; 11%nat; 12%nat] ∧
  ∃ seen, trace (appendWorkspace 12%nat two_workspaces)
          = [Emit (workspaceAdded 2) seen; Emit workspacesChanged seen].
Proof.
  assert (Hfresh : 12%nat ∉ m_workspaces (store two_workspaces)).
  { simpl. intros Hin. repeat (apply elem_of_cons in Hin as [Hin | Hin]; [discriminate |]).
    by apply elem_of_nil in Hin. }
  split; [exact Hfresh |].
  destruct (appendWorkspace_notifies_new_index two_workspaces 12%nat Hfresh)
    as (Hlist & seen & Htrace & _).
  split; [exact Hlist |]. exists seen. exact Htrace.
Defined.

End WorkspaceExamples.

(** ** The window chrome *)

Section ChromeLifecycle.

Import WaylandChrome.

Lemma windowType_deliver (c : Chrome) (e : Event) :
  windowType (deliver c e)
  = match e with WindowTypeChanged t => t | _ => windowType c end.
Proof.
  destruct e as [b | t | p | b | b | | a | v]; simpl; try reflexivity.
  - unfold onMappedChanged, setPosition. simpl. destruct b; [| done].
    destruct (view_of _ _); simpl; repeat case_decide; reflexivity.
  - unfold onActivatedChanged. simpl. by destruct b.
  - unfold onMinimizedChanged. simpl. by destruct b.
  - unfold onSurfaceDestroyed, giveFocusToParent. simpl.
    repeat case_decide; try reflexivity. by destruct (view_of _ _).
  - unfold finished, giveFocusToParent. destruct a; try reflexivity;
      by destruct (view_of _ _).
Qed.

Lemma parentWlSurface_deliver (c : Chrome) (e : Event) :
  parentWlSurface (deliver c e)
  = match e with ParentWlSurfaceChanged p => p | _ => parentWlSurface c end.
Proof.
  destruct e as [b | t | p | b | b | | a | v]; simpl; try reflexivity.
  - unfold onMappedChanged, setPosition. simpl. destruct b; [| done].
    destruct (view_of _ _); simpl; repeat case_decide; reflexivity.
  - unfold onActivatedChanged. simpl. by destruct b.
  - unfold onMinimizedChanged. simpl. by destruct b.
  - unfold onSurfaceDestroyed, giveFocusToParent. simpl.
    repeat case_decide; try reflexivity. by destruct (view_of _ _).
  - unfold finished, giveFocusToParent. destruct a; try reflexivity;
      by destruct (view_of _ _).
Qed.

Lemma run_windowType (evs : list Event) (c : Chrome) :
  windowType (run c evs) = last_windowType evs (windowType c).
Proof.
  revert c. induction evs as [|e evs IH]; intros c; [done |].
  unfold run in *. simpl. rewrite IH, windowType_deliver. by destruct e.
Qed.

Lemma run_parentWlSurface (evs : list Event) (c : Chrome) :
  parentWlSurface (run c evs) = last_parentWlSurface evs (parentWlSurface c).
Proof.
  revert c. induction evs as [|e evs IH]; intros c; [done |].
  unfold run in *. simpl. rewrite IH, parentWlSurface_deliver. by destruct e.
Qed.

(** What destruction adds to the actions: the destroy animation of the
    saved window type, if that type has one; the focus handoff to the view
    of the saved parent, if the output has one; the end of the chrome. *)
Lemma destroy_actions (c : Chrome) :
  actions (destroy c)
  = actions c
    ++ match destroy_animation (windowType c) with Some a => [Start a] | None => [] end
    ++ match view_of c (parentWlSurface c) with
       | Some parentSurfaceItem => [TakeFocus parentSurfaceItem]
       | None => []
       end
    ++ [DestroyChrome].
Proof.
  unfold destroy, destroy_animation, onSurfaceDestroyed. simpl.
  repeat case_decide; simpl; unfold giveFocusToParent, view_of; simpl;
    destruct (parentWlSurface c ≫= _); simpl; by rewrite <- ?app_assoc.
Qed.

(** C5.  When the view of the saved parent cannot be found on the output
    (the parent is gone, or there never was one), the focus handoff leaves
    the chrome as it is, and destruction goes on to its end: the script that
    ends a destroy animation only destroys the chrome, and from the
    surface's destruction on the chrome's actions are the destroy
    animation of its type (if any) and [chrome.destroy()], with no focus
    request. *)
Theorem destroy_with_vanished_parent (c : Chrome) :
  view_of c (parentWlSurface c) = None →
  giveFocusToParent c = c ∧
  (∀ a, a ∈ [topLevelDestroyAnimation; transientDestroyAnimation; popupDestroyAnimation] →
        finished a c = act DestroyChrome c) ∧
  actions (destroy c)
  = actions c
    ++ match destroy_animation (windowType c) with Some a => [Start a] | None => [] end
    ++ [DestroyChrome].
Proof.
  intros Hgone.
  assert (Hnoop : giveFocusToParent c = c).
  { unfold giveFocusToParent. by rewrite Hgone. }
  split; [done |]. split.
  - intros a Ha. unfold finished. rewrite Hnoop.
    repeat (apply elem_of_cons in Ha as [-> | Ha]; [done |]).
    by apply elem_of_nil in Ha.
  - rewrite destroy_actions, Hgone. done.
Qed.

Lemma destroy_with_vanished_parent_witness :
  view_of orphan_popup (parentWlSurface orphan_popup) = None ∧
  giveFocusToParent orphan_popup = orphan_popup ∧
  actions (destroy orphan_popup) = [Start popupDestroyAnimation; DestroyChrome].
Proof.
  split; [reflexivity |].
  destruct (destroy_with_vanished_parent orphan_popup eq_refl) as (Hnoop & _ & Hactions).
  split; [exact Hnoop | exact Hactions].
Defined.

(** C6.  After any sequence of events the chrome's saved window type is
    the value of the latest window-type change and its saved parent the
    value of the latest parent change (the values it had before, if the
    sequence has no such change): each follows its own events only.
    Destruction then starts the destroy animation of exactly that type and
    hands the focus to the view of exactly that parent. *)
Theorem late_binding_latest_wins (c : Chrome) (evs : list Event) :
  windowType (run c evs) = last_windowType evs (windowType c) ∧
  parentWlSurface (run c evs) = last_parentWlSurface evs (parentWlSurface c) ∧
  actions (destroy (run c evs))
  = actions (run c evs)
    ++ match destroy_animation (last_windowType evs (windowType c)) with
       | Some a => [Start a]
       | None => []
       end
    ++ match view_of (run c evs) (last_parentWlSurface evs (parentWlSurface c)) with
       | Some parentSurfaceItem => [TakeFocus parentSurfaceItem]
       | None => []
       end
    ++ [DestroyChrome].
Proof.
  split; [apply run_windowType |]. split; [apply run_parentWlSurface |].
  by rewrite destroy_actions, run_windowType, run_parentWlSurface.
Qed.

(** The type and the parent arrive in either order, each twice. *)
Example late_binding_either_order :
  actions (destroy (run mapped_toplevel
                      [WindowTypeChanged Qt_SubWindow; ParentWlSurfaceChanged (Some 9%nat);
                       ParentWlSurfaceChanged (Some 3%nat); WindowTypeChanged Qt_Popup]))
  = [Start popupDestroyAnimation; TakeFocus 30%nat; DestroyChrome] ∧
  actions (destroy (run mapped_toplevel
                      [ParentWlSurfaceChanged (Some 3%nat); WindowTypeChanged Qt_Popup;
                       WindowTypeChanged Qt_SubWindow; ParentWlSurfaceChanged (Some 9%nat)]))
  = [Start transientDestroyAnimation; DestroyChrome].
Proof. split; reflexivity. Qed.

(** A delivery of [onMappedChanged] for a mapped surface positions the
    window and, for the three animated types, starts the map animation; a
    second delivery does the same again. *)
Lemma onMappedChanged_mapped (c : Chrome) :
  mapped (shellSurface c) = true →
  onMappedChanged c
  = mkChrome (shellSurface c) (windowType c) (parentWlSurface c) (bufferLocked c)
             (viewsBySurface c) (actions c ++ map_actions c).
Proof.
  intros Hmapped. unfold onMappedChanged, setPosition, map_actions, map_animation.
  rewrite Hmapped.
  destruct (view_of c (ss_parentWlSurface (shellSurface c))); simpl;
    repeat case_decide; unfold act; simpl; by rewrite <- ?app_assoc.
Qed.

Lemma onMappedChanged_twice (c : Chrome) :
  mapped (shellSurface c) = true →
  map_actions c ≠ [] ∧
  actions (onMappedChanged c) = actions c ++ map_actions c ∧
  actions (onMappedChanged (onMappedChanged c)) = actions c ++ map_actions c ++ map_actions c.
Proof.
  intros Hmapped. split; [| split].
  - unfold map_actions. by destruct (view_of _ _).
  - by rewrite onMappedChanged_mapped.
  - rewrite (onMappedChanged_mapped c Hmapped).
    rewrite onMappedChanged_mapped by done. simpl.
    by rewrite <- app_assoc.
Qed.

End ChromeLifecycle.

(** ** Mapping a window twice *)

Section MappedTwice.

Context {Workspace : Type}.

(** C8 (as amended).  The code keeps no record of the surfaces already
    mapped.  Every call of [appendWindow] appends the window to the window
    list and emits one windows-changed notification, whether or not the
    window is in the list already: delivered [n] times for one window, it
    leaves [n] entries and [n] notifications.  Likewise every delivery of
    [onMappedChanged] for a mapped surface repeats the positioning and the
    map animation. *)
Theorem mapped_delivery_is_not_deduplicated
    (s : DesktopShell.DesktopShell Workspace) (window : ptr) (n : nat)
    (c : WaylandChrome.Chrome) :
  DesktopShell.m_windows (DesktopShell.store (Nat.iter n (DesktopShell.appendWindow window) s))
    = DesktopShell.m_windows (DesktopShell.store s) ++ replicate n window ∧
  DesktopShell.count_emit DesktopShell.windowsChanged
      (DesktopShell.trace (Nat.iter n (DesktopShell.appendWindow window) s))
    = (DesktopShell.count_emit DesktopShell.windowsChanged (DesktopShell.trace s) + n)%nat ∧
  (WaylandChrome.mapped (WaylandChrome.shellSurface c) = true →
   WaylandChrome.map_actions c ≠ [] ∧
   WaylandChrome.actions (WaylandChrome.onMappedChanged (WaylandChrome.onMappedChanged c))
     = WaylandChrome.actions c ++ WaylandChrome.map_actions c ++ WaylandChrome.map_actions c).
Proof.
  destruct (appendWindow_iter s window n) as [Hw Hc].
  split; [exact Hw |]. split; [exact Hc |].
  intros Hmapped. destruct (onMappedChanged_twice c Hmapped) as (Hne & _ & Htwice).
  by split.
Qed.

End MappedTwice.

Section MappedTwiceExamples.

Import DesktopShell.

(** C8, refuted as stated.  The same window is appended twice: it is twice
    in the window list and two windows-changed notifications have been
    emitted; the chrome of a mapped top-level window has been positioned
    and animated twice. *)
Lemma appendWindow_twice_notifies_twice :
  m_windows (store (appendWindow 7%nat (appendWindow 7%nat no_workspaces))) = [7%nat; 7%nat] ∧
  count_emit windowsChanged (trace (appendWindow 7%nat (appendWindow 7%nat no_workspaces))) = 2%nat ∧
  WaylandChrome.actions
    (WaylandChrome.run WaylandChrome.mapped_toplevel
       [WaylandChrome.MappedChanged true; WaylandChrome.MappedChanged true])
  = [WaylandChrome.MoveToRandomPosition; WaylandChrome.Start WaylandChrome.topLevelMapAnimation;
     WaylandChrome.MoveToRandomPosition; WaylandChrome.Start WaylandChrome.topLevelMapAnimation].
Proof. repeat split; reflexivity. Qed.

Lemma mapped_delivery_is_not_deduplicated_witness :
  WaylandChrome.mapped (WaylandChrome.shellSurface WaylandChrome.mapped_toplevel) = true ∧
  count_emit windowsChanged (trace (Nat.iter 2 (appendWindow 7%nat) no_workspaces)) = 2%nat ∧
  WaylandChrome.actions
    (WaylandChrome.onMappedChanged (WaylandChrome.onMappedChanged WaylandChrome.mapped_toplevel))
  = WaylandChrome.map_actions WaylandChrome.mapped_toplevel
    ++ WaylandChrome.map_actions WaylandChrome.mapped_toplevel.
Proof.
  split; [reflexivity |].
  destruct (mapped_delivery_is_not_deduplicated no_workspaces 7%nat 2
              WaylandChrome.mapped_toplevel) as (_ & Hcount & Hchrome).
  split; [exact Hcount |].
  destruct (Hchrome eq_refl) as [_ Htwice]. exact Htwice.
Defined.

End MappedTwiceExamples.

(** ** The selector over the life of the handlers *)

Section SelectorLifecycle.

Import ShellManager.

Lemma min_element_from_ext {A} (f g : A → A → bool) (l : list A) (x : A) :
  (∀ a b, f a b = g a b) → min_element_from f x l = min_element_from g x l.
Proof.
  intros Hext. revert x. induction l as [|y l IH]; intros x; simpl; [done |].
  by rewrite Hext, IH.
Qed.

Lemma min_element_ext {A} (f g : A → A → bool) (l : list A) :
  (∀ a b, f a b = g a b) → min_element f l = min_element g l.
Proof.
  intros Hext. destruct l as [|x l]; simpl; [done |].
  by rewrite (min_element_from_ext f g l x Hext).
Qed.

Lemma compare_ext (s s' : ShellManager) (a b : ptr) :
  (∀ h, willing s' h = willing s h) → (∀ h, priority s' h = priority s h) →
  compare s' a b = compare s a b.
Proof. intros Hw Hp. unfold compare. by rewrite !Hw, !Hp. Qed.

Lemma willing_setLoaded (s : ShellManager) (h h' : ptr) (b : bool) :
  willing (setLoaded h b s) h' = willing s h'.
Proof.
  unfold willing, setLoaded. simpl. rewrite lookup_alter.
  case_decide; [subst |]; [by destruct (objects s !! h') | done].
Qed.

Lemma priority_setLoaded (s : ShellManager) (h h' : ptr) (b : bool) :
  priority (setLoaded h b s) h' = priority s h'.
Proof.
  unfold priority, setLoaded. simpl. rewrite lookup_alter.
  case_decide; [subst |]; [by destruct (objects s !! h') | done].
Qed.

Lemma path_of_setLoaded (s : ShellManager) (h h' : ptr) (b : bool) :
  path_of (setLoaded h b s) h' = path_of s h'.
Proof.
  unfold path_of, setLoaded. simpl. rewrite lookup_alter.
  case_decide; [subst |]; [by destruct (objects s !! h') | done].
Qed.

Lemma from_option_alter {B} (f : Handler → B) (d : B) (g : Handler → Handler)
    (k h : ptr) (m : gmap ptr Handler) :
  (∀ o, f (g o) = f o) →
  from_option f d (alter g k m !! h) = from_option f d (m !! h).
Proof.
  intros Hfg. rewrite lookup_alter. case_decide; [subst |]; [| done].
  destruct (m !! h); simpl; [apply Hfg | done].
Qed.

Lemma objects_switched (s : ShellManager) (best : ptr) :
  objects (switched best s)
  = alter (with_loaded true) best
      (if non_null (m_currentHandler s)
       then alter (with_loaded false) (m_currentHandler s) (objects s)
       else objects s).
Proof. unfold switched. by destruct (non_null (m_currentHandler s)). Qed.

(** What a switch leaves as it was, and what it sets. *)
Lemma switched_frame (s : ShellManager) (best : ptr) :
  m_handlers (switched best s) = m_handlers s ∧
  m_currentHandler (switched best s) = best ∧
  connections (switched best s) = connections s ∧
  emitted (switched best s) = emitted s ++ [shellChanged (shell_of s best)] ∧
  (∀ h, willing (switched best s) h = willing s h) ∧
  (∀ h, priority (switched best s) h = priority s h) ∧
  (∀ h, shell_of (switched best s) h = shell_of s h) ∧
  (∀ h, path_of (switched best s) h = path_of s h).
Proof.
  do 4 (split; [unfold switched; by destruct (non_null (m_currentHandler s)) |]).
  repeat split; intros h;
    unfold willing, priority, shell_of, path_of; rewrite objects_switched;
    rewrite from_option_alter by done;
    (destruct (non_null (m_currentHandler s)); [by rewrite from_option_alter | done]).
Qed.

(** The two ways an evaluation over a non-empty candidate map ends. *)
Lemma updateShell_cases (s : ShellManager) :
  m_handlers s ≠ ∅ →
  ∃ best,
    min_element (compare s) (values (m_handlers s)) = Some best ∧
    best ∈ values (m_handlers s) ∧
    (m_currentHandler s = best ∧ updateShell s = Returned s ∨
     m_currentHandler s ≠ best ∧ updateShell s = Returned (switched best s)).
Proof.
  intros Hne.
  destruct (selected_first_minimal s Hne) as (best & before & after & Hmin & Hsplit & _).
  exists best. split; [done |]. split.
  { rewrite Hsplit. apply elem_of_app. right. apply elem_of_cons. by left. }
  rewrite (updateShell_selected s best Hne Hmin). fold (switched best s).
  destruct (decide (m_currentHandler s = best)); [by left | by right].
Qed.

Lemma updateShell_empty (s : ShellManager) :
  m_handlers s = ∅ → updateShell s = Aborted fatal_no_handlers s.
Proof. intros He. unfold updateShell. by destruct (decide (m_handlers s = ∅)). Qed.

(** X1.  Evaluating the selector a second time, with nothing changed in
    between, does nothing more: the outcome of two evaluations in a row is
    the outcome of one (same manager, no further notification; the same
    fatal stop when there is no candidate). *)
Theorem updateShell_idempotent (s : ShellManager) :
  bind (updateShell s) updateShell = updateShell s.
Proof.
  destruct (decide (m_handlers s = ∅)) as [He | Hne].
  { by rewrite (updateShell_empty s He). }
  destruct (updateShell_cases s Hne) as (best & Hmin & _ & [[Hcur Hrun] | [Hcur Hrun]]).
  - rewrite Hrun. simpl. exact Hrun.
  - rewrite Hrun. simpl.
    destruct (switched_frame s best) as (Hm & Hc & _ & _ & Hw & Hp & _).
    assert (Hne' : m_handlers (switched best s) ≠ ∅) by (by rewrite Hm).
    assert (Hmin' : min_element (compare (switched best s))
                      (values (m_handlers (switched best s))) = Some best).
    { rewrite Hm, <- Hmin. apply min_element_ext.
      intros a b. by apply compare_ext. }
    rewrite (updateShell_selected _ best Hne' Hmin').
    by destruct (decide (m_currentHandler (switched best s) = best)).
Qed.

(** X3.  When an evaluation over live candidates returns, the current
    handler is a registered candidate and not null; either the manager is
    exactly as before, or one notification was added and the name it
    carries is the one [shell()] reports from then on; [shellDirectory()]
    is the directory of the current handler's path. *)
Theorem updateShell_announces_shell (s s' : ShellManager) :
  candidates_live s →
  updateShell s = Returned s' →
  (∃ name, m_handlers s' !! name = Some (m_currentHandler s')) ∧
  m_currentHandler s' ≠ nullptr ∧
  (s' = s ∨ emitted s' = emitted s ++ [shellChanged (shell s')]) ∧
  shell s' = shell_of s (m_currentHandler s') ∧
  shellDirectory s' = mkQDir (path_of s (m_currentHandler s')).
Proof.
  intros Hlive Hrun.
  destruct (decide (m_handlers s = ∅)) as [He | Hne].
  { rewrite (updateShell_empty s He) in Hrun. discriminate. }
  destruct (updateShell_cases s Hne) as (best & _ & Hin & Hcases).
  apply elem_of_values in Hin as [name Hname].
  destruct (Hlive name best Hname) as [Hnn _].
  assert (Hnon : non_null best = true).
  { unfold non_null. by rewrite bool_decide_eq_false_2. }
  destruct Hcases as [[Hcur Hrun'] | [Hcur Hrun']];
    rewrite Hrun' in Hrun; injection Hrun as <-.
  - rewrite Hcur. split; [by exists name |]. split; [done |]. split; [by left |].
    unfold shell, shellDirectory. by rewrite Hcur, Hnon.
  - destruct (switched_frame s best) as (Hm & Hc & _ & He & _ & _ & Hs & Hp).
    rewrite Hc. split; [exists name; by rewrite Hm |]. split; [done |].
    assert (Hshell : shell (switched best s) = shell_of s best).
    { unfold shell. by rewrite Hc, Hnon, Hs. }
    split; [right; by rewrite He, Hshell |]. split; [done |].
    unfold shellDirectory. by rewrite Hc, Hnon, Hp.
Qed.

Lemma updateShell_announces_shell_witness :
  candidates_live scenario_manager ∧
  ∃ s', updateShell scenario_manager = Returned s' ∧ shell s' = "b" ∧
        emitted s' = [shellChanged "b"].
Proof.
  split; [exact scenario_manager_live |].
  eexists. split; [vm_compute; reflexivity |].
  match goal with |- shell ?s' = _ ∧ _ =>
    destruct (updateShell_announces_shell scenario_manager s' scenario_manager_live)
      as (_ & _ & _ & Hshell & _); [vm_compute; reflexivity |]
  end.
  split; [rewrite Hshell; reflexivity | reflexivity].
Defined.

End SelectorLifecycle.

(** ** Registration, deregistration and loading *)

Section HandlerRegistration.

Import ShellManager.

Lemma key_unregistered (m : gmap string ptr) (h : ptr) :
  h ∉ values m → key m h = "".
Proof.
  intros Hout. unfold key.
  destruct (filter (λ kv : string * ptr, kv.2 = h) (map_to_list m)) as [|kv l] eqn:Hf; [done |].
  exfalso. apply Hout.
  assert (Hkv : kv ∈ filter (λ kv : string * ptr, kv.2 = h) (map_to_list m)).
  { rewrite Hf. apply elem_of_cons. by left. }
  apply list_elem_of_filter in Hkv as [Hval Hkv]. destruct kv as [k v]. simpl in *. subst v.
  apply elem_of_values. exists k. by apply elem_of_map_to_list.
Qed.

Lemma key_registered_once (s : ShellManager) (name : string) (handler : ptr) :
  m_handlers s !! name = Some handler → registered_once s handler →
  key (m_handlers s) handler = name.
Proof.
  intros Hname Honce. apply (Honce _ name); [| done].
  apply key_lookup. apply elem_of_values. by exists name.
Qed.

(** X4.  Deregistering the current handler, registered under one name,
    while other live candidates remain: the call returns with that entry
    removed and the handler disconnected, one of the remaining candidates
    current and loaded, and exactly one notification added, carrying the
    name [shell()] now reports.  The handler that left is not written to.
    If only the current handler could be loaded before, the same holds
    after. *)
Theorem deregisterHandler_current_reselects (s : ShellManager) (name : string) :
  candidates_live s →
  m_handlers s !! name = Some (m_currentHandler s) →
  registered_once s (m_currentHandler s) →
  delete name (m_handlers s) ≠ ∅ →
  ∃ s',
    deregisterHandler (m_currentHandler s) s = Returned s' ∧
    m_handlers s' = delete name (m_handlers s) ∧
    m_currentHandler s' ≠ m_currentHandler s ∧
    (∃ name', name' ≠ name ∧ m_handlers s !! name' = Some (m_currentHandler s')) ∧
    loaded s' (m_currentHandler s') = true ∧
    objects s' !! m_currentHandler s = objects s !! m_currentHandler s ∧
    (m_currentHandler s ∉ connections s') ∧
    emitted s' = emitted s ++ [shellChanged (shell s')] ∧
    (only_current_loaded s → only_current_loaded s').
Proof.
  intros Hlive Hname Honce Hrest.
  pose proof (key_registered_once s name _ Hname Honce) as Hkey.
  unfold deregisterHandler. rewrite Hkey. simpl.
  destruct (decide (m_currentHandler s = m_currentHandler s)) as [_ |]; [| done].
  set (s2 := set_currentHandler nullptr
               (set_connections (connections s ∖ {[m_currentHandler s]})
                  (set_handlers (delete name (m_handlers s)) s))).
  destruct (updateShell_cases s2 Hrest) as (best & _ & Hin & Hcases).
  apply elem_of_values in Hin as [name' Hname'].
  change (m_handlers s2) with (delete name (m_handlers s)) in Hname'.
  apply lookup_delete_Some in Hname' as [Hne Hname'].
  destruct (Hlive name' best Hname') as [Hnn Hbest_live].
  assert (Hother : best ≠ m_currentHandler s).
  { intros ->. apply Hne. by apply Honce. }
  destruct Hcases as [[Hcur _] | [_ Hrun]]; [by symmetry in Hcur |].
  exists (switched best s2). split; [exact Hrun |].
  destruct (switched_frame s2 best) as (Hm & Hc & Hconn & Hemit & _ & _ & Hshell & _).
  assert (Hobjs : objects (switched best s2) = alter (with_loaded true) best (objects s)).
  { by rewrite objects_switched. }
  rewrite Hc. split; [done |]. split; [done |]. split; [by exists name' |].
  split.
  { unfold loaded. rewrite Hobjs, lookup_alter, decide_True by done.
    destruct Hbest_live as [o Ho]. by rewrite Ho. }
  split.
  { rewrite Hobjs, lookup_alter. by rewrite decide_False. }
  split.
  { rewrite Hconn. simpl. intros Hin. apply elem_of_difference in Hin as [_ Hin].
    apply Hin. by apply elem_of_singleton. }
  split.
  { rewrite Hemit. do 2 f_equal. unfold shell. rewrite Hc.
    unfold non_null. rewrite bool_decide_eq_false_2 by done. simpl. by rewrite Hshell. }
  intros Hinv n h Hn Hl. rewrite Hc. rewrite Hm in Hn.
  change (m_handlers s2) with (delete name (m_handlers s)) in Hn.
  apply lookup_delete_Some in Hn as [Hnn' Hn].
  destruct (decide (h = best)) as [| Hh]; [done |]. exfalso.
  unfold loaded in Hl. rewrite Hobjs, lookup_alter, decide_False in Hl by done.
  apply Hnn'. apply (Honce name n); [done |].
  by rewrite <- (Hinv n h Hn Hl).
Qed.

(** X5.  Deregistering a handler that is not registered (and not current)
    returns with nothing emitted and no object touched.  [key] finds no
    name for it and answers the empty name, so the entry removed is the one
    under the empty name: every candidate with another name stays, and
    the map is unchanged when no candidate has the empty name. *)
Theorem deregisterHandler_unregistered (s : ShellManager) (handler : ptr) :
  handler ∉ values (m_handlers s) →
  m_currentHandler s ≠ handler →
  ∃ s',
    deregisterHandler handler s = Returned s' ∧
    m_handlers s' = delete "" (m_handlers s) ∧
    (∀ name, name ≠ "" → m_handlers s' !! name = m_handlers s !! name) ∧
    (m_handlers s !! "" = None → m_handlers s' = m_handlers s) ∧
    m_currentHandler s' = m_currentHandler s ∧
    objects s' = objects s ∧
    emitted s' = emitted s.
Proof.
  intros Hout Hcur. unfold deregisterHandler. rewrite (key_unregistered _ _ Hout). simpl.
  destruct (decide (m_currentHandler s = handler)); [done |].
  eexists. split; [reflexivity |]. simpl. repeat split; try done.
  - intros name Hname. by rewrite lookup_delete_ne.
  - intros Hnone. by apply delete_id.
Qed.

(** X6.  Registering a handler under a free name and deregistering it
    again gives back the manager as it was, provided the handler was not
    known before (not a candidate, not connected, not current). *)
Theorem register_then_deregister (s : ShellManager) (name : string) (handler : ptr) :
  m_handlers s !! name = None →
  handler ∉ values (m_handlers s) →
  handler ∉ connections s →
  m_currentHandler s ≠ handler →
  deregisterHandler handler (registerHandler name handler s) = Returned s.
Proof.
  intros Hfree Hout Hconn Hcur.
  assert (Hkey : key (m_handlers (registerHandler name handler s)) handler = name).
  { destruct (decide (key (m_handlers (registerHandler name handler s)) handler = name))
      as [| Hne]; [done |]. exfalso.
    assert (Hin : handler ∈ values (m_handlers (registerHandler name handler s))).
    { apply elem_of_values. exists name. simpl. apply lookup_insert_eq. }
    apply key_lookup in Hin. simpl in Hin.
    rewrite lookup_insert_ne in Hin by done.
    apply Hout. apply elem_of_values. eauto. }
  unfold deregisterHandler. rewrite Hkey. simpl.
  destruct (decide (m_currentHandler s = handler)); [done |].
  f_equal. destruct s as [m cur objs conns em]. simpl in *.
  unfold set_connections, set_handlers. simpl. f_equal.
  - by apply delete_insert_id.
  - apply set_eq. intros x. rewrite elem_of_difference, elem_of_union, elem_of_singleton.
    split; [by intros [[-> | Hx] Hne] | intros Hx; split; [by right | by intros ->]].
Qed.

Lemma running_manager_live : candidates_live running_manager.
Proof.
  intros name h Hname. simpl in Hname.
  apply lookup_insert_Some in Hname as [[_ <-] | [_ Hname]].
  { split; [done |]. by eexists. }
  apply lookup_insert_Some in Hname as [[_ <-] | [_ Hname]].
  { split; [done |]. by eexists. }
  by rewrite lookup_empty in Hname.
Qed.

Lemma running_manager_once : registered_once running_manager 2%nat.
Proof.
  intros n1 n2 H1 H2. simpl in H1, H2.
  apply lookup_insert_Some in H1 as [[_ Habs] | [_ H1]]; [discriminate |].
  apply lookup_insert_Some in H2 as [[_ Habs] | [_ H2]]; [discriminate |].
  apply lookup_insert_Some in H1 as [[<- _] | [_ H1]]; [| by rewrite lookup_empty in H1].
  apply lookup_insert_Some in H2 as [[<- _] | [_ H2]]; [| by rewrite lookup_empty in H2].
  done.
Qed.

Lemma deregisterHandler_current_reselects_witness :
  candidates_live running_manager ∧
  m_handlers running_manager !! "b" = Some (m_currentHandler running_manager) ∧
  registered_once running_manager (m_currentHandler running_manager) ∧
  delete "b" (m_handlers running_manager) ≠ ∅ ∧
  ∃ s', deregisterHandler 2%nat running_manager = Returned s' ∧
        m_currentHandler s' ≠ 2%nat ∧
        emitted s' = [shellChanged "b"; shellChanged (shell s')].
Proof.
  assert (Hrest : delete "b" (m_handlers running_manager) ≠ ∅).
  { intros H. vm_compute in H. discriminate H. }
  split; [exact running_manager_live |]. split; [reflexivity |].
  split; [exact running_manager_once |]. split; [exact Hrest |].
  destruct (deregisterHandler_current_reselects running_manager "b"
              running_manager_live eq_refl running_manager_once Hrest)
    as (s' & Hrun & _ & Hcur & _ & _ & _ & _ & Hemit & _).
  exists s'. split; [exact Hrun |]. split; [exact Hcur | exact Hemit].
Defined.

Lemma tie_manager_values : values (m_handlers tie_manager) = [2%nat; 1%nat].
Proof. vm_compute. reflexivity. Qed.

Lemma deregisterHandler_unregistered_witness :
  (3%nat ∉ values (m_handlers tie_manager)) ∧ m_currentHandler tie_manager ≠ 3%nat ∧
  ∃ s', deregisterHandler 3%nat tie_manager = Returned s' ∧
        m_handlers s' = m_handlers tie_manager.
Proof.
  assert (Hout : 3%nat ∉ values (m_handlers tie_manager)).
  { rewrite tie_manager_values. intros Hin.
    repeat (apply elem_of_cons in Hin as [Hin | Hin]; [discriminate |]).
    by apply elem_of_nil in Hin. }
  assert (Hcur : m_currentHandler tie_manager ≠ 3%nat) by (vm_compute; discriminate).
  split; [exact Hout |]. split; [exact Hcur |].
  destruct (deregisterHandler_unregistered tie_manager 3%nat Hout Hcur)
    as (s' & Hrun & _ & _ & Hsame & _).
  exists s'. split; [exact Hrun |]. apply Hsame. reflexivity.
Defined.

Lemma register_then_deregister_witness :
  m_handlers empty_manager !! "x" = None ∧
  (1%nat ∉ values (m_handlers empty_manager)) ∧
  (1%nat ∉ connections empty_manager) ∧
  m_currentHandler empty_manager ≠ 1%nat ∧
  deregisterHandler 1%nat (registerHandler "x" 1%nat empty_manager) = Returned empty_manager.
Proof.
  assert (Hout : 1%nat ∉ values (m_handlers empty_manager)).
  { intros Hin. apply elem_of_values in Hin as [name Hname]. simpl in Hname.
    by rewrite lookup_empty in Hname. }
  assert (Hconn : 1%nat ∉ connections empty_manager).
  { simpl. apply not_elem_of_empty. }
  assert (Hcur : m_currentHandler empty_manager ≠ 1%nat) by (simpl; discriminate).
  split; [reflexivity |]. split; [exact Hout |]. split; [exact Hconn |].
  split; [exact Hcur |].
  exact (register_then_deregister empty_manager "x" 1%nat eq_refl Hout Hconn Hcur).
Defined.

Lemma updateShell_returns_iff (s : ShellManager) :
  (∃ s', updateShell s = Returned s') ↔ m_handlers s ≠ ∅.
Proof.
  split.
  - intros [s' Hrun] He. rewrite (updateShell_empty s He) in Hrun. discriminate.
  - intros Hne. destruct (updateShell_cases s Hne) as (best & _ & _ & [[_ H] | [_ H]]); eauto.
Qed.

(** What one turn of the loop of [loadHandlers] does: nothing, when the
    metadata is not valid, the name is taken or no object is created;
    otherwise it registers a new object under the name. *)
Lemma loadHandler_cases (shellsDir : string) (s : ShellManager) (d : ShellDir) :
  (loadHandler shellsDir s d = s ∧
   (¬ loadable d ∨ ∃ name, internalName d = Some name ∧ is_Some (m_handlers s !! name))) ∨
  (∃ name o,
     internalName d = Some name ∧ component d = Some o ∧ m_handlers s !! name = None ∧
     loadHandler shellsDir s d
     = mkShellManager
         (<[name := fresh (dom (objects s) ∪ {[nullptr]})]> (m_handlers s))
         (m_currentHandler s)
         (<[fresh (dom (objects s) ∪ {[nullptr]})
              := with_path (absoluteFilePath shellsDir (dirName d +:+ "/contents/")) o]>
            (objects s))
         ({[fresh (dom (objects s) ∪ {[nullptr]})]} ∪ connections s)
         (emitted s)).
Proof.
  unfold loadHandler, loadable.
  destruct (internalName d) as [name|] eqn:Hn.
  2:{ left. split; [done |]. left. intros [[? ?] _]. discriminate. }
  destruct (decide (is_Some (m_handlers s !! name))) as [Htaken | Hfree].
  { left. split; [done |]. right. by exists name. }
  destruct (component d) as [o|] eqn:Hc.
  2:{ left. split; [done |]. left. intros [_ [? ?]]. discriminate. }
  right. exists name, o. repeat split; try done.
  - by apply eq_None_not_Some.
  - unfold create, setPath, registerHandler, set_objects, set_handlers, set_connections.
    simpl. by rewrite alter_insert_eq.
Qed.

Lemma fresh_handler (s : ShellManager) :
  fresh (dom (objects s) ∪ {[nullptr]}) ≠ nullptr ∧
  objects s !! fresh (dom (objects s) ∪ {[nullptr]}) = None.
Proof.
  pose proof (is_fresh (dom (objects s) ∪ {[nullptr]})) as Hfresh.
  split.
  - intros Heq. apply Hfresh. apply elem_of_union. right. by apply elem_of_singleton.
  - apply not_elem_of_dom. intros Hin. apply Hfresh. apply elem_of_union. by left.
Qed.

(** X9.  A directory with valid metadata, a name not yet registered and a
    component that creates an object: the loop registers, under that name,
    a new object (not null, at an address no object had), connected, with
    the properties the component gave it and its [path] set to
    [<shellsDir>/<dirName>/contents/]; the current handler and the
    notifications are untouched. *)
Theorem loadHandler_registers_fresh (shellsDir : string) (s : ShellManager) (d : ShellDir)
    (name : string) (o : Handler) :
  internalName d = Some name →
  component d = Some o →
  m_handlers s !! name = None →
  ∃ handler,
    handler ≠ nullptr ∧ objects s !! handler = None ∧
    m_handlers (loadHandler shellsDir s d) = <[name := handler]> (m_handlers s) ∧
    objects (loadHandler shellsDir s d)
    = <[handler := with_path (shellsDir +:+ "/" +:+ dirName d +:+ "/contents/") o]> (objects s) ∧
    connections (loadHandler shellsDir s d) = {[handler]} ∪ connections s ∧
    m_currentHandler (loadHandler shellsDir s d) = m_currentHandler s ∧
    emitted (loadHandler shellsDir s d) = emitted s.
Proof.
  intros Hn Hc Hfree.
  destruct (loadHandler_cases shellsDir s d)
    as [[_ [Hnot | (name' & Hn' & Htaken)]] | (name' & o' & Hn' & Hc' & _ & Heq)].
  - exfalso. apply Hnot. split; by eexists.
  - rewrite Hn in Hn'. injection Hn' as <-. rewrite Hfree in Htaken. by destruct Htaken.
  - rewrite Hn in Hn'. injection Hn' as <-. rewrite Hc in Hc'. injection Hc' as <-.
    destruct (fresh_handler s) as [Hnn Hnew].
    exists (fresh (dom (objects s) ∪ {[nullptr]})). rewrite Heq. by repeat split.
Qed.

Lemma loadHandler_registers_fresh_witness :
  ∃ handler,
    m_handlers (loadHandler "/usr/share/hawaii/shells" empty_manager
                  (mkShellDir "desktop" (Some "org.desktop")
                              (Some (mkHandler true 1 false "desktop" ""))))
    = {[ "org.desktop" := handler ]} ∧ handler ≠ nullptr.
Proof.
  destruct (loadHandler_registers_fresh "/usr/share/hawaii/shells" empty_manager
              (mkShellDir "desktop" (Some "org.desktop")
                          (Some (mkHandler true 1 false "desktop" "")))
              "org.desktop" (mkHandler true 1 false "desktop" "") eq_refl eq_refl eq_refl)
    as (handler & Hnn & _ & Hm & _).
  exists handler. split; [exact Hm | exact Hnn].
Defined.

Lemma loadHandler_keeps (shellsDir : string) (s : ShellManager) (d : ShellDir) :
  (∀ name h, m_handlers s !! name = Some h →
             m_handlers (loadHandler shellsDir s d) !! name = Some h) ∧
  (∀ p o, objects s !! p = Some o → objects (loadHandler shellsDir s d) !! p = Some o) ∧
  (candidates_live s → candidates_live (loadHandler shellsDir s d)) ∧
  (m_handlers (loadHandler shellsDir s d) ≠ ∅ → m_handlers s ≠ ∅ ∨ loadable d) ∧
  (loadable d → m_handlers (loadHandler shellsDir s d) ≠ ∅).
Proof.
  destruct (fresh_handler s) as [Hnn Hnew].
  destruct (loadHandler_cases shellsDir s d)
    as [[-> Hwhy] | (name & o & Hn & Hc & Hfree & ->)].
  - split; [done |]. split; [done |]. split; [done |]. split; [by left |].
    intros Hload He. destruct Hwhy as [Hnot | (name & _ & [h Hh])]; [done |].
    rewrite He, lookup_empty in Hh. discriminate.
  - simpl. split; [| split; [| split; [| split]]].
    + intros name' h Hname'. rewrite lookup_insert_ne; [done |].
      intros <-. rewrite Hfree in Hname'. discriminate.
    + intros p o' Hp. rewrite lookup_insert_ne; [done |].
      intros <-. rewrite Hnew in Hp. discriminate.
    + intros Hlive name' h Hname'. simpl in *.
      apply lookup_insert_Some in Hname' as [[_ <-] | [_ Hname']].
      * split; [done |]. rewrite lookup_insert_eq. by eexists.
      * destruct (Hlive name' h Hname') as [Hh [oh Hoh]]. split; [done |].
        exists oh. rewrite lookup_insert_ne; [done |].
        intros <-. rewrite Hnew in Hoh. discriminate.
    + intros _. right. split; by eexists.
    + intros _. apply insert_non_empty.
Qed.

Lemma loadHandler_nonempty (shellsDir : string) (s : ShellManager) (d : ShellDir) :
  m_handlers s ≠ ∅ → m_handlers (loadHandler shellsDir s d) ≠ ∅.
Proof.
  intros Hne He. apply Hne. apply map_eq. intros name. rewrite lookup_empty.
  destruct (m_handlers s !! name) as [h|] eqn:Hname; [| done].
  destruct (loadHandler_keeps shellsDir s d) as (Hkeep & _).
  apply Hkeep in Hname. rewrite He, lookup_empty in Hname. discriminate.
Qed.

Lemma loadHandlers_loop_keeps (shellsDir : string) (entryList : list ShellDir) (s : ShellManager) :
  (∀ name h, m_handlers s !! name = Some h →
             m_handlers (foldl (loadHandler shellsDir) s entryList) !! name = Some h) ∧
  (∀ p o, objects s !! p = Some o →
          objects (foldl (loadHandler shellsDir) s entryList) !! p = Some o) ∧
  (candidates_live s → candidates_live (foldl (loadHandler shellsDir) s entryList)) ∧
  (m_handlers (foldl (loadHandler shellsDir) s entryList) ≠ ∅ ↔
   m_handlers s ≠ ∅ ∨ Exists loadable entryList).
Proof.
  revert s. induction entryList as [|d l IH]; intros s; simpl.
  - split; [done |]. split; [done |]. split; [done |]. split; [by left |].
    intros [H | H]; [done | by apply Exists_nil in H].
  - destruct (IH (loadHandler shellsDir s d)) as (IHm & IHo & IHl & IHe).
    destruct (loadHandler_keeps shellsDir s d) as (Hm & Ho & Hl & He & Hld).
    split; [| split; [| split; [| split]]].
    + intros name h Hname. by apply IHm, Hm.
    + intros p o Hp. by apply IHo, Ho.
    + intros Hlive. by apply IHl, Hl.
    + intros Hne. apply IHe in Hne as [Hne | Hex].
      * destruct (He Hne) as [? | Hd]; [by left | right; by apply Exists_cons_hd].
      * right. by apply Exists_cons_tl.
    + intros [Hne | Hex]; apply IHe.
      * left. by apply loadHandler_nonempty.
      * apply Exists_cons in Hex as [Hd | Hex]; [left; by apply Hld | by right].
Qed.

Lemma alter_loaded_lookup (m : gmap ptr Handler) (k p : ptr) (b : bool) (o : Handler) :
  m !! p = Some o →
  ∃ o', alter (with_loaded b) k m !! p = Some o' ∧
        prop_willing o' = prop_willing o ∧ prop_priority o' = prop_priority o ∧
        prop_shell o' = prop_shell o ∧ prop_path o' = prop_path o.
Proof.
  intros Hp. rewrite lookup_alter. case_decide; [subst |]; rewrite Hp; simpl; eauto 10.
Qed.

Lemma switched_object (s : ShellManager) (best p : ptr) (o : Handler) :
  objects s !! p = Some o →
  ∃ o', objects (switched best s) !! p = Some o' ∧
        prop_willing o' = prop_willing o ∧ prop_priority o' = prop_priority o ∧
        prop_shell o' = prop_shell o ∧ prop_path o' = prop_path o.
Proof.
  intros Hp. rewrite objects_switched.
  destruct (non_null (m_currentHandler s)).
  - destruct (alter_loaded_lookup _ (m_currentHandler s) p false o Hp)
      as (o1 & H1 & Hw & Hpr & Hs & Hpa).
    destruct (alter_loaded_lookup _ best p true o1 H1) as (o2 & H2 & Hw2 & Hpr2 & Hs2 & Hpa2).
    exists o2. repeat split; congruence.
  - by apply alter_loaded_lookup.
Qed.

(** X7.  When [loadHandlers] returns, every name registered before is
    still registered to the same handler (a later directory with the same
    internal name is passed over), and every object that existed still
    exists with its willing, priority, shell and path properties as they
    were.  Starting from live candidates, the candidates are live and the
    current handler is not null. *)
Theorem loadHandlers_keeps_registered (INSTALL_DATADIR : string) (entryList : list ShellDir)
    (s s' : ShellManager) :
  loadHandlers INSTALL_DATADIR entryList s = Returned s' →
  (∀ name h, m_handlers s !! name = Some h → m_handlers s' !! name = Some h) ∧
  (∀ p o, objects s !! p = Some o →
     ∃ o', objects s' !! p = Some o' ∧
           prop_willing o' = prop_willing o ∧ prop_priority o' = prop_priority o ∧
           prop_shell o' = prop_shell o ∧ prop_path o' = prop_path o) ∧
  (candidates_live s → candidates_live s' ∧ m_currentHandler s' ≠ nullptr).
Proof.
  unfold loadHandlers. intros Hrun.
  set (sd := INSTALL_DATADIR +:+ "/hawaii/shells") in *.
  destruct (loadHandlers_loop_keeps sd entryList s) as (Hm & Ho & Hl & _).
  set (s1 := foldl (loadHandler sd) s entryList) in *.
  assert (Hne : m_handlers s1 ≠ ∅).
  { apply updateShell_returns_iff. eauto. }
  destruct (updateShell_cases s1 Hne) as (best & _ & Hin & Hcases).
  apply elem_of_values in Hin as [bname Hbname].
  destruct Hcases as [[Hcur Hrun'] | [Hcur Hrun']];
    rewrite Hrun' in Hrun; injection Hrun as <-.
  - split; [done |]. split.
    { intros p o Hp. exists o. split; [by apply Ho | done]. }
    intros Hlive. split; [by apply Hl |].
    rewrite Hcur. by destruct (Hl Hlive bname best Hbname).
  - destruct (switched_frame s1 best) as (Hsm & Hsc & _).
    split; [intros name h Hname; rewrite Hsm; by apply Hm |]. split.
    { intros p o Hp. apply Ho in Hp.
      destruct (switched_object s1 best p o Hp) as (o' & Ho' & Hfields). eauto. }
    intros Hlive. split.
    + intros name h Hname. rewrite Hsm in Hname.
      destruct (Hl Hlive name h Hname) as [Hh [oh Hoh]]. split; [done |].
      destruct (switched_object s1 best h oh Hoh) as (o' & Ho' & _). by exists o'.
    + rewrite Hsc. by destruct (Hl Hlive bname best Hbname).
Qed.

Lemma loadHandlers_keeps_registered_witness :
  ∃ s', loadHandlers "/usr/share" [mkShellDir "again" (Some "a") (Some (mkHandler true 0 false "new" ""))]
          scenario_manager = Returned s' ∧
        m_handlers s' !! "a" = Some 1%nat.
Proof.
  eexists. split; [vm_compute; reflexivity |].
  match goal with |- m_handlers ?s' !! _ = _ =>
    destruct (loadHandlers_keeps_registered "/usr/share"
                [mkShellDir "again" (Some "a") (Some (mkHandler true 0 false "new" ""))]
                scenario_manager s') as (Hkeep & _); [vm_compute; reflexivity |]
  end.
  apply Hkeep. reflexivity.
Defined.

(** X8.  [loadHandlers] returns exactly when a candidate is there to
    select: one was registered before the call, or some directory has
    valid metadata and a component that creates an object.  In every
    other case it ends in the fatal stop. *)
Theorem loadHandlers_returns_iff (INSTALL_DATADIR : string) (entryList : list ShellDir)
    (s : ShellManager) :
  (∃ s', loadHandlers INSTALL_DATADIR entryList s = Returned s') ↔
  (m_handlers s ≠ ∅ ∨ Exists loadable entryList).
Proof.
  unfold loadHandlers. rewrite updateShell_returns_iff.
  by destruct (loadHandlers_loop_keeps (INSTALL_DATADIR +:+ "/hawaii/shells") entryList s)
    as (_ & _ & _ & Hiff).
Qed.

End HandlerRegistration.

(** ** The window and workspace lists over time *)

Section WindowLists.

Import DesktopShell.

Context {Workspace : Type}.
Implicit Types (s : DesktopShell Workspace) (num index : Z).

Lemma at_index_delete {A} (l : list A) (i : nat) (index : Z) :
  (i < length l)%nat →
  at_index (delete i l) index
  = if decide (index < Z.of_nat i) then at_index l index
    else if decide (index < Z.of_nat (length l) - 1) then at_index l (index + 1)
    else None.
Proof.
  intros Hi. unfold at_index.
  rewrite length_delete by (by apply lookup_lt_is_Some).
  destruct (decide (index < Z.of_nat i)) as [Hlt | Hge].
  - destruct (decide (0 ≤ index < Z.of_nat (length l - 1))) as [Hin | Hout];
      destruct (decide (0 ≤ index < Z.of_nat (length l))) as [Hin' | Hout']; try lia.
    + apply list_lookup_delete_lt. lia.
    + done.
  - destruct (decide (index < Z.of_nat (length l) - 1)) as [Hlt' | Hge'].
    + destruct (decide (0 ≤ index < Z.of_nat (length l - 1))) as [Hin | Hout]; [| lia].
      destruct (decide (0 ≤ index + 1 < Z.of_nat (length l))) as [Hin' | Hout']; [| lia].
      rewrite list_lookup_delete_ge by lia. f_equal. lia.
    + destruct (decide (0 ≤ index < Z.of_nat (length l - 1))); [lia | done].
Qed.

(** X10.  Removing the workspace at a valid index of a list of live
    workspaces leaves one workspace less; the workspaces before the index
    keep their index, each one after it moves down by one, and the last
    index is no longer valid.  The window list is not touched. *)
Theorem removeWorkspace_shifts_indices s num :
  workspaces_live s →
  0 ≤ num < workspacesCount s →
  ∃ s',
    removeWorkspace num s = Returned s' ∧
    workspacesCount s' = workspacesCount s - 1 ∧
    (∀ index, index < num → workspaceAt s' index = workspaceAt s index) ∧
    (∀ index, num ≤ index < workspacesCount s - 1 →
              workspaceAt s' index = workspaceAt s (index + 1)) ∧
    (∀ index, workspacesCount s - 1 ≤ index → workspaceAt s' index = None) ∧
    m_windows (store s') = m_windows (store s).
Proof.
  intros Hlive [Hpos Hlt]. unfold workspacesCount in *.
  assert (Hi : (Z.to_nat num < length (m_workspaces (store s)))%nat) by lia.
  destruct (lookup_lt_is_Some_2 _ _ Hi) as [workspace Hat].
  destruct (Hlive _ _ Hat) as [Hnonnull _].
  unfold removeWorkspace. rewrite (takeAt_in_range _ _ _ Hpos Hat).
  unfold non_null. rewrite bool_decide_eq_false_2 by done. simpl.
  eexists. split; [reflexivity |]. unfold workspaceAt. simpl.
  split.
  { rewrite length_delete by (by eexists). lia. }
  split; [| split; [| split]]; try done; intros index Hindex;
    rewrite (at_index_delete _ _ index Hi).
  - rewrite decide_True by lia. done.
  - rewrite decide_False by lia. rewrite decide_True by lia. done.
  - rewrite decide_False by lia. rewrite decide_False by lia. done.
Qed.

(** X11.  A null entry at a valid index is dropped from the workspace
    list without a word: [removeWorkspace] returns, the list is one
    shorter, and neither a notification nor a release is added to the
    trace. *)
Theorem removeWorkspace_null_entry s num :
  0 ≤ num →
  m_workspaces (store s) !! Z.to_nat num = Some nullptr →
  ∃ s',
    removeWorkspace num s = Returned s' ∧
    m_workspaces (store s') = delete (Z.to_nat num) (m_workspaces (store s)) ∧
    workspacesCount s' = workspacesCount s - 1 ∧
    trace s' = trace s ∧
    workspace_objects (store s') = workspace_objects (store s).
Proof.
  intros Hpos Hat. unfold removeWorkspace. rewrite (takeAt_in_range _ _ _ Hpos Hat).
  simpl. eexists. split; [reflexivity |]. simpl. repeat split.
  unfold workspacesCount. simpl. rewrite length_delete by (by eexists).
  apply lookup_lt_Some in Hat. lia.
Qed.

Lemma removeOne_absent (l : list ptr) (v : ptr) : v ∉ l → removeOne l v = l.
Proof.
  induction l as [|x l IH]; intros Hout; simpl; [done |].
  apply not_elem_of_cons in Hout as [Hne Hout].
  destruct (decide (x = v)); [by subst |]. by rewrite IH.
Qed.

Lemma removeOne_first (l1 l2 : list ptr) (v : ptr) :
  v ∉ l1 → removeOne (l1 ++ v :: l2) v = l1 ++ l2.
Proof.
  induction l1 as [|x l1 IH]; intros Hout; simpl.
  - by destruct (decide (v = v)).
  - apply not_elem_of_cons in Hout as [Hne Hout].
    destruct (decide (x = v)); [by subst |]. by rewrite IH.
Qed.

Lemma count_emit_snoc (sig : Signal) (t : list (Action Workspace)) (a : Action Workspace) :
  count_emit sig (t ++ [a])
  = (count_emit sig t + if is_emit sig a then 1 else 0)%nat.
Proof.
  unfold count_emit. rewrite List.filter_app, length_app. simpl.
  by destruct (is_emit sig a).
Qed.

(** X12.  [windowUnmapped] always emits one windows-changed notification.
    If the window is in the list, exactly its first entry is removed and
    the others keep their order; if not, the list is unchanged. *)
Theorem windowUnmapped_removes_first s (window : ptr) :
  count_emit windowsChanged (trace (windowUnmapped window s))
    = (count_emit windowsChanged (trace s) + 1)%nat ∧
  (window ∈ m_windows (store s) →
     ∃ l1 l2, m_windows (store s) = l1 ++ window :: l2 ∧ (window ∉ l1) ∧
              m_windows (store (windowUnmapped window s)) = l1 ++ l2) ∧
  (window ∉ m_windows (store s) →
     m_windows (store (windowUnmapped window s)) = m_windows (store s)).
Proof.
  split; [| split].
  - unfold windowUnmapped, emit. simpl. by rewrite count_emit_snoc.
  - intros Hin. apply list_elem_of_split_l in Hin as (l1 & l2 & Heq & Hout).
    exists l1, l2. split; [done |]. split; [done |].
    simpl. rewrite Heq. by apply removeOne_first.
  - intros Hout. simpl. by apply removeOne_absent.
Qed.

Lemma appendWindow_iter_connections s (window : ptr) (n : nat) :
  unmapped_connections (store (Nat.iter n (appendWindow window) s))
  = unmapped_connections (store s) ++ replicate n window.
Proof.
  induction n as [|n IH]; simpl; [by rewrite app_nil_r |].
  rewrite IH, <- app_assoc. by rewrite <- replicate_cons_app.
Qed.

Lemma filter_is_window (l : list ptr) (window : ptr) (n : nat) :
  window ∉ l →
  filter (λ w, w = window) (l ++ replicate n window) = replicate n window.
Proof.
  intros Hout. rewrite filter_app.
  assert (H1 : filter (λ w, w = window) l = []).
  { induction l as [|x l IH]; [done |].
    apply not_elem_of_cons in Hout as [Hne Hout].
    rewrite filter_cons_False by (intros ->; done). by apply IH. }
  rewrite H1. simpl. induction n as [|n IH]; [done |].
  simpl. rewrite filter_cons_True by done. by rewrite IH.
Qed.

Lemma windowUnmapped_repeated (window : ptr) (l : list ptr) (n : nat) s :
  window ∉ l →
  m_windows (store s) = l ++ replicate n window →
  m_windows (store (foldl (fun s' _ => windowUnmapped window s') s (replicate n window))) = l ∧
  count_emit windowsChanged
    (trace (foldl (fun s' (_ : ptr) => windowUnmapped window s') s (replicate n window)))
  = (count_emit windowsChanged (trace s) + n)%nat.
Proof.
  intros Hout. revert s. induction n as [|n IH]; intros s Hl; simpl.
  - rewrite app_nil_r in Hl. split; [done | lia].
  - destruct (IH (windowUnmapped window s)) as [IHl IHc].
    { simpl. rewrite Hl. simpl. by apply removeOne_first. }
    split; [done |]. rewrite IHc.
    unfold windowUnmapped, emit. simpl. rewrite count_emit_snoc. simpl. lia.
Qed.

(** X13.  A window that was not known is appended [n] times, which
    connects its unmapped signal [n] times; when the window then emits
    the signal once, [windowUnmapped] runs [n] times: every entry of the
    window is removed, the list is as it was before the appends, and [n]
    more windows-changed notifications are emitted. *)
Theorem unmapped_undoes_appends s (window : ptr) (n : nat) :
  window ∉ m_windows (store s) →
  window ∉ unmapped_connections (store s) →
  m_windows (store (unmapped window (Nat.iter n (appendWindow window) s)))
    = m_windows (store s) ∧
  count_emit windowsChanged (trace (unmapped window (Nat.iter n (appendWindow window) s)))
    = (count_emit windowsChanged (trace s) + 2 * n)%nat.
Proof.
  intros Hout Hconn. unfold unmapped.
  rewrite appendWindow_iter_connections, (filter_is_window _ _ _ Hconn).
  destruct (appendWindow_iter s window n) as [Hw Hc].
  destruct (windowUnmapped_repeated window (m_windows (store s)) n
              (Nat.iter n (appendWindow window) s) Hout Hw) as [Hl Hcount].
  split; [done |]. rewrite Hcount, Hc. lia.
Qed.

Lemma indexOf_from_present (l r : list ptr) (v : ptr) (i : Z) :
  v ∈ l →
  ∃ k : nat, indexOf_from (l ++ r) v i = i + Z.of_nat k ∧ l !! k = Some v.
Proof.
  revert i. induction l as [|x l IH]; intros i Hin; [by apply elem_of_nil in Hin |].
  simpl. destruct (decide (x = v)) as [-> | Hne].
  - exists 0%nat. split; [lia | done].
  - apply elem_of_cons in Hin as [-> | Hin]; [done |].
    destruct (IH (i + 1) Hin) as (k & Hk & Hat).
    exists (S k). split; [rewrite Hk; lia | done].
Qed.

(** X14.  Appending a workspace object that is already in the list adds a
    second entry at the end, but the [workspaceAdded] notification
    carries the index of an entry that was there before (where [indexOf]
    finds the object), not the index of the entry just added. *)
Theorem appendWorkspace_again_reports_old_index s (workspace : ptr) :
  workspace ∈ m_workspaces (store s) →
  m_workspaces (store (appendWorkspace workspace s)) = m_workspaces (store s) ++ [workspace] ∧
  ∃ index seen,
    trace (appendWorkspace workspace s)
    = trace s ++ [Emit (workspaceAdded index) seen; Emit workspacesChanged seen] ∧
    0 ≤ index < workspacesCount s ∧
    workspaceAt s index = Some workspace.
Proof.
  intros Hin. split; [done |].
  destruct (indexOf_from_present _ [workspace] workspace 0 Hin) as (k & Hk & Hat).
  exists (Z.of_nat k). eexists. unfold appendWorkspace, emit. simpl.
  rewrite <- app_assoc. simpl. unfold indexOf. rewrite Hk, Z.add_0_l.
  split; [reflexivity |].
  pose proof (lookup_lt_Some _ _ _ Hat) as Hlt. unfold workspacesCount.
  split; [lia |]. unfold workspaceAt, at_index.
  rewrite decide_True by lia. by rewrite Nat2Z.id.
Qed.

End WindowLists.

Section WindowListExamples.

Import DesktopShell.

Lemma removeWorkspace_shifts_indices_witness :
  workspaces_live two_workspaces ∧ 0 ≤ 0 < workspacesCount two_workspaces ∧
  ∃ s', removeWorkspace 0 two_workspaces = Returned s' ∧
        workspaceAt s' 0 = Some 11%nat ∧ workspaceAt s' 1 = None.
Proof.
  assert (Hvalid : 0 ≤ 0 < workspacesCount two_workspaces).
  { unfold workspacesCount. simpl. lia. }
  split; [exact two_workspaces_live |]. split; [exact Hvalid |].
  destruct (removeWorkspace_shifts_indices two_workspaces 0 two_workspaces_live Hvalid)
    as (s' & Hrun & _ & _ & Hshift & Hlast & _).
  exists s'. split; [exact Hrun |]. split.
  - rewrite (Hshift 0); [reflexivity |]. unfold workspacesCount. simpl. lia.
  - apply Hlast. unfold workspacesCount. simpl. lia.
Defined.

Lemma removeWorkspace_null_entry_witness :
  0 ≤ 0 ∧
  ∃ s', removeWorkspace 0 (mkDesktopShell (mkStore [] [nullptr] (∅ : gmap ptr (list ptr)) []) [])
        = Returned s' ∧ trace s' = [].
Proof.
  split; [lia |].
  destruct (removeWorkspace_null_entry
              (mkDesktopShell (mkStore [] [nullptr] (∅ : gmap ptr (list ptr)) []) [])
              0 ltac:(lia) eq_refl) as (s' & Hrun & _ & _ & Htrace & _).
  exists s'. split; [exact Hrun | exact Htrace].
Defined.

Lemma unmapped_undoes_appends_witness :
  (8%nat ∉ m_windows (store two_workspaces)) ∧
  (8%nat ∉ unmapped_connections (store two_workspaces)) ∧
  m_windows (store (unmapped 8%nat (Nat.iter 2 (appendWindow 8%nat) two_workspaces)))
    = [7%nat].
Proof.
  assert (Hout : 8%nat ∉ [7%nat]).
  { intros Hin. apply elem_of_cons in Hin as [Hin | Hin]; [discriminate |].
    by apply elem_of_nil in Hin. }
  split; [exact Hout |]. split; [exact Hout |].
  destruct (unmapped_undoes_appends two_workspaces 8%nat 2 Hout Hout) as [Hl _].
  exact Hl.
Defined.

Lemma appendWorkspace_again_reports_old_index_witness :
  11%nat ∈ m_workspaces (store two_workspaces) ∧
  ∃ seen, trace (appendWorkspace 11%nat two_workspaces)
          = [Emit (workspaceAdded 1) seen; Emit workspacesChanged seen].
Proof.
  assert (Hin : 11%nat ∈ m_workspaces (store two_workspaces)).
  { simpl. apply elem_of_cons. right. apply elem_of_cons. by left. }
  split; [exact Hin |].
  destruct (appendWorkspace_again_reports_old_index two_workspaces 11%nat Hin)
    as (_ & index & seen & Htrace & _).
  eexists. reflexivity.
Defined.

End WindowListExamples.

(** ** Services *)

Section ServiceCache.

Import DesktopShell.

(** X15.  Once the factory has returned an object for a name, [service]
    keeps answering with that object: a later call for the name returns
    the same pointer, leaves the services as they are and does not call
    the factory, whatever the factory would return then.  The services
    stored under other names are not affected by the first call. *)
Theorem service_created_once (name : string) (made : ptr) (sv : Services) :
  made ≠ nullptr →
  (service name made sv).1 ≠ nullptr ∧
  (∀ made', service name made' (service name made sv).2
            = ((service name made sv).1, (service name made sv).2)) ∧
  (∀ other, other ≠ name →
            m_services (service name made sv).2 !! other = m_services sv !! other).
Proof.
  intros Hmade. unfold service.
  destruct (non_null (default nullptr (m_services sv !! name))) eqn:Hknown; simpl.
  - split; [| split; [| done]].
    + unfold non_null in Hknown. apply negb_true_iff, bool_decide_eq_false in Hknown. done.
    + intros made'. by rewrite Hknown.
  - split; [done |]. split.
    + intros made'. rewrite lookup_insert_eq. simpl.
      unfold non_null. by rewrite bool_decide_eq_false_2.
    + intros other Hother. by rewrite lookup_insert_ne.
Qed.

Lemma service_created_once_witness :
  5%nat ≠ nullptr ∧
  service "notifications" 6%nat (service "notifications" 5%nat (mkServices ∅ [])).2
  = (5%nat, mkServices {[ "notifications" := 5%nat ]} [("notifications", 5%nat)]).
Proof.
  split; [discriminate |].
  destruct (service_created_once "notifications" 5%nat (mkServices ∅ []) ltac:(discriminate))
    as (_ & Hsame & _).
  exact (Hsame 6%nat).
Defined.

(** X16.  When no object is stored for a name and the factory creates
    none, [service] returns null and stores null under the name; the next
    call for the name asks the factory again and returns what it creates
    then. *)
Theorem service_retries_after_failure (name : string) (made' : ptr) (sv : Services) :
  default nullptr (m_services sv !! name) = nullptr →
  service name nullptr sv
  = (nullptr, mkServices (<[name := nullptr]> (m_services sv))
                         (factory_calls sv ++ [(name, nullptr)])) ∧
  (service name made' (service name nullptr sv).2).1 = made' ∧
  factory_calls (service name made' (service name nullptr sv).2).2
  = factory_calls sv ++ [(name, nullptr); (name, made')].
Proof.
  intros Hnone. unfold service. rewrite Hnone. simpl.
  rewrite lookup_insert_eq. simpl. split; [done |]. split; [done |].
  by rewrite <- app_assoc.
Qed.

Lemma service_retries_after_failure_witness :
  default nullptr (m_services (mkServices ∅ []) !! "clock") = nullptr ∧
  (service "clock" 9%nat (service "clock" nullptr (mkServices ∅ [])).2).1 = 9%nat.
Proof.
  assert (Hnone : default nullptr (m_services (mkServices ∅ []) !! "clock") = nullptr)
    by reflexivity.
  split; [exact Hnone |].
  destruct (service_retries_after_failure "clock" 9%nat (mkServices ∅ []) Hnone)
    as (_ & Hagain & _).
  exact Hagain.
Defined.

End ServiceCache.

(** ** The chrome's saved properties and its moves *)

Section ChromeTracking.

Import WaylandChrome.

Lemma ss_windowType_deliver (c : Chrome) (e : Event) :
  ss_windowType (shellSurface (deliver c e))
  = match e with WindowTypeChanged t => t | _ => ss_windowType (shellSurface c) end.
Proof.
  destruct e as [b | t | p | b | b | | a | v]; simpl; try reflexivity.
  - unfold onMappedChanged, setPosition. simpl. destruct b; [| done].
    destruct (view_of _ _); simpl; repeat case_decide; reflexivity.
  - unfold onActivatedChanged. simpl. by destruct b.
  - unfold onMinimizedChanged. simpl. by destruct b.
  - unfold onSurfaceDestroyed, giveFocusToParent. simpl.
    repeat case_decide; try reflexivity. by destruct (view_of _ _).
  - unfold finished, giveFocusToParent. destruct a; try reflexivity;
      by destruct (view_of _ _).
Qed.

Lemma ss_parentWlSurface_deliver (c : Chrome) (e : Event) :
  ss_parentWlSurface (shellSurface (deliver c e))
  = match e with
    | ParentWlSurfaceChanged p => p
    | _ => ss_parentWlSurface (shellSurface c)
    end.
Proof.
  destruct e as [b | t | p | b | b | | a | v]; simpl; try reflexivity.
  - unfold onMappedChanged, setPosition. simpl. destruct b; [| done].
    destruct (view_of _ _); simpl; repeat case_decide; reflexivity.
  - unfold onActivatedChanged. simpl. by destruct b.
  - unfold onMinimizedChanged. simpl. by destruct b.
  - unfold onSurfaceDestroyed, giveFocusToParent. simpl.
    repeat case_decide; try reflexivity. by destruct (view_of _ _).
  - unfold finished, giveFocusToParent. destruct a; try reflexivity;
      by destruct (view_of _ _).
Qed.

Lemma bufferLocked_deliver (c : Chrome) (e : Event) :
  bufferLocked (deliver c e)
  = match e with SurfaceDestroyed => true | _ => bufferLocked c end.
Proof.
  destruct e as [b | t | p | b | b | | a | v]; simpl; try reflexivity.
  - unfold onMappedChanged, setPosition. simpl. destruct b; [| done].
    destruct (view_of _ _); simpl; repeat case_decide; reflexivity.
  - unfold onActivatedChanged. simpl. by destruct b.
  - unfold onMinimizedChanged. simpl. by destruct b.
  - unfold onSurfaceDestroyed, giveFocusToParent. simpl.
    repeat case_decide; try reflexivity. by destruct (view_of _ _).
  - unfold finished, giveFocusToParent. destruct a; try reflexivity;
      by destruct (view_of _ _).
Qed.

Lemma run_app (c : Chrome) (evs1 evs2 : list Event) :
  run c (evs1 ++ evs2) = run (run c evs1) evs2.
Proof. unfold run. apply foldl_app. Qed.

Lemma synced_type_preserved (evs : list Event) (c : Chrome) :
  windowType c = ss_windowType (shellSurface c) →
  windowType (run c evs) = ss_windowType (shellSurface (run c evs)).
Proof.
  revert c. induction evs as [|e evs IH]; intros c Hsync; [done |].
  unfold run in *. simpl. apply IH.
  rewrite windowType_deliver, ss_windowType_deliver. by destruct e.
Qed.

Lemma synced_parent_preserved (evs : list Event) (c : Chrome) :
  parentWlSurface c = ss_parentWlSurface (shellSurface c) →
  parentWlSurface (run c evs) = ss_parentWlSurface (shellSurface (run c evs)).
Proof.
  revert c. induction evs as [|e evs IH]; intros c Hsync; [done |].
  unfold run in *. simpl. apply IH.
  rewrite parentWlSurface_deliver, ss_parentWlSurface_deliver. by destruct e.
Qed.

(** X17.  From the first window-type change on, the type the chrome has
    saved is the surface's current type, whatever events follow; likewise
    the saved parent is the surface's current parent from the first
    parent change on. *)
Theorem saved_copies_track_surface (c : Chrome) (evs1 evs2 : list Event) :
  (∀ t, windowType (run c (evs1 ++ WindowTypeChanged t :: evs2))
        = ss_windowType (shellSurface (run c (evs1 ++ WindowTypeChanged t :: evs2)))) ∧
  (∀ p, parentWlSurface (run c (evs1 ++ ParentWlSurfaceChanged p :: evs2))
        = ss_parentWlSurface
            (shellSurface (run c (evs1 ++ ParentWlSurfaceChanged p :: evs2)))).
Proof.
  split.
  - intros t. rewrite run_app.
    change (run (run c evs1) (WindowTypeChanged t :: evs2))
      with (run (deliver (run c evs1) (WindowTypeChanged t)) evs2).
    apply synced_type_preserved.
    by rewrite windowType_deliver, ss_windowType_deliver.
  - intros p. rewrite run_app.
    change (run (run c evs1) (ParentWlSurfaceChanged p :: evs2))
      with (run (deliver (run c evs1) (ParentWlSurfaceChanged p)) evs2).
    apply synced_parent_preserved.
    by rewrite parentWlSurface_deliver, ss_parentWlSurface_deliver.
Qed.

Lemma last_windowType_unchanged (evs : list Event) (known : Z) :
  (∀ t, WindowTypeChanged t ∉ evs) → last_windowType evs known = known.
Proof.
  induction evs as [|e evs IH]; intros Hnone; [done |].
  assert (Hrest : ∀ t, WindowTypeChanged t ∉ evs).
  { intros t Hin. apply (Hnone t). apply elem_of_cons. by right. }
  destruct e; simpl; try (by apply IH).
  exfalso. eapply Hnone. apply elem_of_cons. by left.
Qed.

(** X18.  A chrome that is never told a window type keeps the type it
    starts with, [Qt.Window], whatever the type of its surface: when the
    surface is destroyed it is the top-level destroy animation that
    starts, and the chrome is destroyed at the end of it. *)
Theorem untold_type_destroys_as_toplevel (ss : ShellSurface) (views : gmap Surface Item)
    (evs : list Event) :
  (∀ t, WindowTypeChanged t ∉ evs) →
  windowType (run (initial ss views) evs) = Qt_Window ∧
  ss_windowType (shellSurface (run (initial ss views) evs)) = ss_windowType ss ∧
  ∃ handoff,
    actions (destroy (run (initial ss views) evs))
    = actions (run (initial ss views) evs)
      ++ [Start topLevelDestroyAnimation] ++ handoff ++ [DestroyChrome] ∧
    (handoff = [] ∨ ∃ item, handoff = [TakeFocus item]).
Proof.
  intros Hnone.
  assert (Htype : windowType (run (initial ss views) evs) = Qt_Window).
  { rewrite run_windowType. by apply last_windowType_unchanged. }
  split; [done |]. split.
  - clear Htype. change ss with (shellSurface (initial ss views)) at 2.
    generalize (initial ss views). induction evs as [|e evs IH]; intros c; [done |].
    unfold run in *. simpl. rewrite IH.
    + rewrite ss_windowType_deliver. destruct e; try done.
      exfalso. eapply Hnone. apply elem_of_cons. by left.
    + intros t Hin. apply (Hnone t). apply elem_of_cons. by right.
  - rewrite destroy_actions, Htype. unfold destroy_animation.
    rewrite decide_True by done.
    destruct (view_of _ _) as [item|]; eexists; (split; [reflexivity |]); eauto.
Qed.

Lemma untold_type_destroys_as_toplevel_witness :
  (∀ t, WindowTypeChanged t ∉ [MappedChanged true; ActivatedChanged true]) ∧
  windowType (run (initial (mkShellSurface false Qt_Popup None false false) ∅)
                  [MappedChanged true; ActivatedChanged true]) = Qt_Window.
Proof.
  assert (Hnone : ∀ t, WindowTypeChanged t ∉ [MappedChanged true; ActivatedChanged true]).
  { intros t Hin. repeat (apply elem_of_cons in Hin as [Hin | Hin]; [discriminate |]).
    by apply elem_of_nil in Hin. }
  split; [exact Hnone |].
  destruct (untold_type_destroys_as_toplevel
              (mkShellSurface false Qt_Popup None false false) ∅
              [MappedChanged true; ActivatedChanged true] Hnone) as (Htype & _).
  exact Htype.
Defined.

(** X19.  Once the surface has been destroyed the chrome's buffer stays
    locked: no later event unlocks it. *)
Theorem bufferLocked_after_destruction (c : Chrome) (evs1 evs2 : list Event) :
  bufferLocked (run c (evs1 ++ SurfaceDestroyed :: evs2)) = true.
Proof.
  rewrite run_app.
  change (run (run c evs1) (SurfaceDestroyed :: evs2))
    with (run (deliver (run c evs1) SurfaceDestroyed) evs2).
  assert (Hlocked : bufferLocked (deliver (run c evs1) SurfaceDestroyed) = true).
  { by rewrite bufferLocked_deliver. }
  revert Hlocked. generalize (deliver (run c evs1) SurfaceDestroyed).
  induction evs2 as [|e evs IH]; intros c' Hlocked; [done |].
  unfold run in *. simpl. apply IH. rewrite bufferLocked_deliver. by destruct e.
Qed.

End ChromeTracking.

Section ChromeMoves.

Import WaylandChrome.

Context {R : Type}.
Implicit Types (st : MoveState R) (evs : list (MoveEvent R)).

Lemma moveItemPosition_kept evs st :
  Minimized ∉ evs → moveItemPosition (run_move st evs) = moveItemPosition st.
Proof.
  revert st. induction evs as [|e evs IH]; intros st Hnone; [done |].
  apply not_elem_of_cons in Hnone as [Hne Hnone].
  unfold run_move in *. simpl. rewrite IH by done.
  destruct e; try done.
  - unfold deliver_move, onStartMove, set_moving. by case_decide.
  - unfold deliver_move, onMouseRelease, set_moving. by case_decide.
Qed.

(** X20.  Minimizing sends the move item to the task icon and keeps the
    position the item had.  Restoring the window afterwards sends the item
    back to exactly that position, wherever the item has been moved in
    the meantime, as long as the window was not minimized again. *)
Theorem unminimize_returns_to_saved_position st evs :
  Minimized ∉ evs →
  requests (deliver_move st Minimized)
    = requests st ++ [animateTo (taskIconGeometry st).1 (taskIconGeometry st).2] ∧
  requests (deliver_move (run_move (deliver_move st Minimized) evs) Unminimized)
    = requests (run_move (deliver_move st Minimized) evs)
      ++ [animateTo (moveItem_x st) (moveItem_y st)].
Proof.
  intros Hnone. split; [done |].
  simpl. unfold unminimizeAnimation_script, request. simpl.
  by rewrite (moveItemPosition_kept evs _ Hnone).
Qed.




End ChromeMoves.

Section ChromeMoveExamples.

Import WaylandChrome.

Lemma unminimize_returns_to_saved_position_witness :
  (Minimized ∉ [ItemMoved 0 0; StartMove; MouseRelease]) ∧
  requests (deliver_move
              (run_move (deliver_move (mkMoveState 120 80 (0, 0) (4, 700) false []) Minimized)
                        [ItemMoved 0 0; StartMove; MouseRelease])
              Unminimized)
  = [animateTo 4 700; grabCursor MoveGrabCursor; grabCursor ArrowGrabCursor; pingClient;
     animateTo 120 80].
Proof.
  assert (Hnone : (Minimized : MoveEvent Z) ∉ [ItemMoved 0 0; StartMove; MouseRelease]).
  { intros Hin. repeat (apply elem_of_cons in Hin as [Hin | Hin]; [discriminate |]).
    by apply elem_of_nil in Hin. }
  split; [exact Hnone |].
  destruct (unminimize_returns_to_saved_position
              (mkMoveState 120 80 (0, 0) (4, 700) false []) _ Hnone) as [_ Hback].
  rewrite Hback. reflexivity.
Defined.

End ChromeMoveExamples.
